(** * GeoSearch: an offline gazetteer on top of a full-text index

    Shallow embedding of [src/GeoSearch/geosearch.py].  The Python class
    [GeoSearch] queries and builds a Whoosh index of GeoNames records.  The
    methods are embedded as functions in a small state-and-exception monad;
    the Whoosh calls the methods make are given a model that is kept apart in
    the modules [Whoosh] and [Writer]. *)

From Stdlib Require Import ZArith QArith List String Ascii Lia.
From stdpp Require Import base gmap strings list fin_maps.

Local Open Scope string_scope.
Local Open Scope list_scope.

(** ** Python values *)

Module Py.

(** Numbers a caller can pass for a numeric keyword argument: a finite
    [int] or [float] (every one of them is a rational), the two float
    infinities and the float NaN. *)
Inductive number :=
| Fin (q : Q)
| Inf (positive : bool)
| NaN.

(** [x > k], [x == k] and [x != k] against an integer literal [k];
    comparisons with NaN are false, except [!=]. *)
Definition gt (x : number) (k : Z) : bool :=
  match x with
  | Fin q => negb (Qle_bool q (inject_Z k))
  | Inf positive => positive
  | NaN => false
  end.

Definition eq (x : number) (k : Z) : bool :=
  match x with
  | Fin q => Qeq_bool q (inject_Z k)
  | _ => false
  end.

Definition ne (x : number) (k : Z) : bool := negb (eq x k).

(** Exceptions raised by the code, or by the library calls it makes. *)
Inductive exn :=
| ValueError (msg : string)
| KeyError (key : string)
| IndexError
| AttributeError
| TypeError
| AssertionError
| FileNotFoundError
| EmptyIndexError.

Inductive result (A : Type) :=
| Ok (a : A)
| Raise (e : exn).
Arguments Ok {A} a.
Arguments Raise {A} e.

(** Scalar values of a stored field. *)
Inductive val :=
| VNone
| VStr (s : string)
| VInt (z : Z)
| VFloat (q : Q)
| VDate (s : string).

(** [str.lower], on the ASCII letters. *)
Definition lower_ascii (c : ascii) : ascii :=
  let n := nat_of_ascii c in
  if (65 <=? n)%nat && (n <=? 90)%nat then ascii_of_nat (n + 32) else c.

Fixpoint lower (s : string) : string :=
  match s with
  | EmptyString => EmptyString
  | String c s' => String (lower_ascii c) (lower s')
  end.

(** Truth value of a string: [not s] holds of the empty string only. *)
Definition str_truthy (s : string) : bool :=
  match s with
  | EmptyString => false
  | String _ _ => true
  end.

End Py.
Import Py.

(** A document of the index: its stored fields, [Hit.fields()]. *)
Abbreviation doc := (gmap string val).

(** A value of a result dictionary: a stored scalar, or the nested
    dictionary of an administrative region. *)
Inductive pval :=
| Flat (v : val)
| Nested (d : doc).

Abbreviation attrs := (gmap string pval).

(** ** The query side of Whoosh *)

Module Whoosh.

(** [termclass] argument of [MultifieldParser]: the default [Term], or a
    [FuzzyTerm] with its [maxdist] and [prefixlength]. *)
Inductive termclass :=
| PlainTerm
| Fuzzy (maxdist prefixlength : nat).

#[warnings="-register-all"]
Inductive query :=
| Term (fieldname text : string)
| NumericRange (fieldname : string) (start stop : Q)
| And (subqueries : list query)
| Parsed (fieldnames : list string) (tc : termclass) (querystr : string).

Record hit := { hit_fields : doc; hit_score : Q }.

(** [Results]: the top hits, and [len(results)], the number of documents
    that match. *)
Record results := { top : list hit; total : nat }.

(** The ranking of the hits: by falling score, and two hits of one score
    in the order of the index. *)
Fixpoint insert_hit (h : hit) (l : list hit) : list hit :=
  match l with
  | [] => [h]
  | x :: l' =>
      if Qle_bool (hit_score x) (hit_score h) then h :: l else x :: insert_hit h l'
  end.

Definition rank (l : list hit) : list hit := foldr insert_hit [] l.

(** The first [limit] elements, all of them when [limit] is [None]. *)
Definition up_to {A} (limit : option positive) (l : list A) : list A :=
  match limit with
  | Some n => take (Pos.to_nat n) l
  | None => l
  end.

Section Matching.

(** Text analysis and scoring are the library's: whether an analysed
    TEXT field of a document holds a term, whether a document matches
    a parsed multi-field query, and the relevance score. *)
Variable term_match : string -> string -> doc -> bool.
Variable text_match : list string -> termclass -> string -> doc -> bool.
Variable scoring : query -> doc -> Q.

(** [NumericRange(field, start, end)]: both ends are inclusive. *)
Definition in_range (fieldname : string) (start stop : Q) (d : doc) : bool :=
  match d !! fieldname with
  | Some (VFloat x) => Qle_bool start x && Qle_bool x stop
  | _ => false
  end.

Fixpoint matches (q : query) (d : doc) : bool :=
  match q with
  | Term f t => term_match f t d
  | NumericRange f a b => in_range f a b d
  | And qs => forallb (fun q' => matches q' d) qs
  | Parsed fs tc s => text_match fs tc s d
  end.

(** [searcher.search(q, limit=limit, scored=True)]: [limit] is at least 1,
    or [None] for no limit. *)
Definition search (idx : list doc) (q : query) (limit : option positive) : results :=
  let ms := filter (fun d => matches q d = true) idx in
  let hs := map (fun d => {| hit_fields := d; hit_score := scoring q d |}) ms in
  {| top := up_to limit (rank hs); total := length ms |}.

End Matching.

End Whoosh.
Import Whoosh.

(** ** The engine, its environment and the monad of its methods *)

(** One class of the feature-code table, as [placecodes.json] holds it:
    [{"descr": ..., "codes": {code: {"short": ..., "full": ...}}}]. *)
Record fclass := { descr : option string; codes : gmap string (gmap string string) }.

Abbreviation codetable := (gmap string fclass).

(** The calls a method makes on the index and on the file of feature
    codes, in the order it makes them. *)
Inductive event :=
| EvSearcher                 (* self.whooidx.searcher() *)
| EvSearch (q : query)       (* searcher.search(q, ...) *)
| EvLoadCodes.               (* open and json.load of placecodes.json *)

Record state := {
  place_codes : option codetable;      (* self.place_codes *)
  whooidx : list doc;                  (* the documents of self.whooidx *)
  placecodes_json : option codetable;  (* the file placecodes.json of the
                                          download directory, None when it
                                          does not exist *)
  trace : list event
}.

(** Methods run in a state, and return a value or raise; the state an
    exception leaves behind is kept. *)
Definition St (S A : Type) : Type := S -> result A * S.

Definition ret {S A} (a : A) : St S A := fun s => (Ok a, s).

Definition bind {S A B} (m : St S A) (k : A -> St S B) : St S B :=
  fun s => match m s with
           | (Ok a, s') => k a s'
           | (Raise e, s') => (Raise e, s')
           end.

Definition raise {S A} (e : exn) : St S A := fun s => (Raise e, s).

Definition get {S} : St S S := fun s => (Ok s, s).

Definition lift {S A} (r : result A) : St S A := fun s => (r, s).

Definition result_bind {A B} (r : result A) (k : A -> result B) : result B :=
  match r with
  | Ok a => k a
  | Raise e => Raise e
  end.

Abbreviation M := (St state).

Definition emit (ev : event) : M unit :=
  fun s => (Ok tt, {| place_codes := place_codes s; whooidx := whooidx s;
                      placecodes_json := placecodes_json s;
                      trace := trace s ++ [ev] |}).

Definition set_place_codes (t : codetable) : M unit :=
  fun s => (Ok tt, {| place_codes := Some t; whooidx := whooidx s;
                      placecodes_json := placecodes_json s;
                      trace := trace s |}).

Declare Scope py_scope.
Delimit Scope py_scope with py.
Notation "x <- m ;; k" := (bind m (fun x => k))
  (at level 100, m at next level, right associativity) : py_scope.
Notation "m ;; k" := (bind m (fun _ => k))
  (at level 100, right associativity) : py_scope.
Local Open Scope py_scope.

(** A new engine over an index, as [__init__] leaves it. *)
Definition init (idx : list doc) (file : option codetable) : state :=
  {| place_codes := None; whooidx := idx; placecodes_json := file; trace := [] |}.

(** ** The class [GeoSearch]: queries *)

(** An element of the list a query returns: [{'score': ..., 'place': ...}]. *)
Record entry := { score : Q; place : attrs }.

(** [class FuzzyTerm2(wq.FuzzyTerm)]: [maxdist=2, prefixlength=1]; the
    library's [FuzzyTerm] has [maxdist=1, prefixlength=1]. *)
Definition FuzzyTerm : termclass := Fuzzy 1 1.
Definition FuzzyTerm2 : termclass := Fuzzy 2 1.

Inductive level := exact | single | double.

Definition name_fields : list string := ["name"; "asciiname"; "alternatenames"].

(** The parser [find] picks for a level, applied to the query string. *)
Definition parse (lv : level) (querystr : string) : query :=
  match lv with
  | exact => Parsed name_fields PlainTerm querystr
  | single => Parsed name_fields FuzzyTerm querystr
  | double => Parsed name_fields FuzzyTerm2 querystr
  end.

(** [levels], lines 89 to 93. *)
Definition levels (maxdist : number) : list level :=
  [exact] ++ (if ne maxdist 0 then [single] else [])
          ++ (if eq maxdist 2 then [double] else []).

Definition fnum : list string := ["1"; "2"; "3"; "4"].

Definition excludeatb : list string :=
  map (fun k => "admin" ++ k ++ "_code")%string fnum
    ++ ["feature_code"; "feature_class"; "country_code"; "cc2"].

(** [for key in excludeatb: other.pop(key, None)] *)
Definition strip (other : doc) : doc :=
  foldl (fun d key => delete key d) other excludeatb.

(** Truth value of [self.place_codes]: [None] and the empty dictionary are
    false. *)
Definition codes_truthy (pc : option codetable) : bool :=
  match pc with
  | None => false
  | Some t => negb (Nat.eqb (size t) 0)
  end.

(** [d.get(k, default)] of a dictionary with string keys, for a key that
    is a value of a result dictionary: a dictionary is not hashable, a key
    that is no string is not found. *)
Definition dict_get {V} (d : gmap string V) (k : pval) (dflt : V) : result V :=
  match k with
  | Flat (VStr s) => Ok (default dflt (d !! s))
  | Flat _ => Ok dflt
  | Nested _ => Raise TypeError
  end.

Definition opt_str (o : option string) : val :=
  match o with
  | Some s => VStr s
  | None => VNone
  end.

Section Engine.

Variable term_match : string -> string -> doc -> bool.
Variable text_match : list string -> termclass -> string -> doc -> bool.
Variable scoring : query -> doc -> Q.

(** [self.whooidx.searcher()] and [searcher.search(q, limit=limit)] *)
Definition searcher : M unit := emit EvSearcher.

Definition searcher_search (q : query) (limit : option positive) : M results :=
  s <- get ;;
  emit (EvSearch q) ;;
  ret (search term_match text_match scoring (whooidx s) q limit).

(** Lines 211 to 213: the table is read from the file and kept. *)
Definition load_codes : M codetable :=
  s <- get ;;
  match placecodes_json s with
  | None => raise FileNotFoundError
  | Some t => emit EvLoadCodes ;; set_place_codes t ;; ret t
  end.

Definition _add_description (atb : attrs) : M attrs :=
  s <- get ;;
  pc <- (if negb (codes_truthy (place_codes s)) then load_codes
         else ret (default ∅ (place_codes s))) ;;
  let classid := default (Flat (VStr "")) (atb !! "feature_class") in
  let codeid := default (Flat (VStr "")) (atb !! "feature_code") in
  fclass <- lift (dict_get pc classid {| descr := None; codes := ∅ |}) ;;
  let fclass_descr := descr fclass in
  fcode <- lift (dict_get (codes fclass) codeid ∅) ;;
  let fcode_short := default "" (fcode !! "short") in
  let fcode_full := default "" (fcode !! "full") in
  ret (<["feature_code_full" := Flat (VStr fcode_full)]>
       (<["feature_code_short" := Flat (VStr fcode_short)]>
        (<["feature_class_descr" := Flat (opt_str fclass_descr)]> atb))).

(** [atb[key].lower()] *)
Definition item_lower (atb : attrs) (key : string) : M string :=
  match atb !! key with
  | None => raise (KeyError key)
  | Some (Flat (VStr s)) => ret (lower s)
  | Some _ => raise AttributeError
  end.

(** The loop of [_add_hierarchy], lines 233 to 249, over the levels that
    remain; [conditions] grows by one term a level. *)
Fixpoint hierarchy_loop (ls : list string) (conditions : list query) (atb : attrs)
  : M attrs :=
  match ls with
  | [] => ret atb
  | l :: ls' =>
      let admincode := ("admin" ++ l ++ "_code")%string in
      adminvalue <- item_lower atb admincode ;;
      if negb (str_truthy adminvalue) then ret atb
      else
        let conditions := conditions ++ [Term admincode adminvalue] in
        let query := And (conditions ++ [Term "feature_code" ("adm" ++ l)%string]) in
        results <- searcher_search query (Some 10%positive) ;;
        if Nat.eqb (total results) 1 then
          match top results with
          | h :: _ =>
              hierarchy_loop ls' conditions
                (<[("admin" ++ l)%string := Nested (strip (hit_fields h))]> atb)
          | [] => raise IndexError
          end
        else ret atb
  end.

Definition _add_hierarchy (atb : attrs) : M attrs :=
  country_code <- item_lower atb "country_code" ;;
  hierarchy_loop fnum [Term "country_code" country_code] atb.

(** The loop of [_response] over the hits. *)
Fixpoint response_loop (hierarchy expand_codes : bool) (hits : list hit)
  (found : list entry) : M (list entry) :=
  match hits with
  | [] => ret found
  | res :: hits' =>
      let atb : attrs := Flat <$> hit_fields res in
      atb <- (if expand_codes then _add_description atb else ret atb) ;;
      atb <- (if hierarchy then _add_hierarchy atb else ret atb) ;;
      response_loop hierarchy expand_codes hits'
        (found ++ [{| score := hit_score res; place := atb |}])
  end.

Definition _response (result : results) (hierarchy expand_codes : bool)
  : M (list entry) :=
  if negb (Nat.eqb (total result) 0)
  then response_loop hierarchy expand_codes (top result) []
  else ret [].

(** The loop of [find] over the levels, lines 95 to 110. *)
Fixpoint find_loop (querystr : string) (limit : option positive)
  (hierarchy expand_codes : bool) (lvs : list level) (found : list entry)
  : M (list entry) :=
  match lvs with
  | [] => ret found
  | lv :: lvs' =>
      let q := parse lv querystr in
      res <- searcher_search q limit ;;
      found <- _response res hierarchy expand_codes ;;
      match found with
      | _ :: _ => ret found
      | [] => find_loop querystr limit hierarchy expand_codes lvs' found
      end
  end.

Definition find (querystr : string) (limit : option positive) (maxdist : number)
  (hierarchy expand_codes : bool) : M (list entry) :=
  if gt maxdist 2 then raise (ValueError "Maxdist parameter must be less than 3")
  else
    searcher ;;
    find_loop querystr limit hierarchy expand_codes (levels maxdist) [].

(** [range] is [None] when the caller leaves it out.  Coordinates are
    rationals: the rounding of floats is left out. *)
Definition findpos (lat lon : Q) (limit : option positive) (range : option Q)
  (hierarchy expand_codes : bool) : M (list entry) :=
  let range := default (1 # 1000)%Q range in
  searcher ;;
  let q := And [NumericRange "latitude" (lat - range)%Q (lat + range)%Q;
                NumericRange "longitude" (lon - range)%Q (lon + range)%Q] in
  res <- searcher_search q limit ;;
  _response res hierarchy expand_codes.

End Engine.

(** ** The writing side of Whoosh *)

Module Writer.

(** The index directory: missing, present without an index in it, or
    holding an index with its committed documents. *)
Inductive dirstate :=
| NoDir
| NoIndex
| Index (docs : list doc).

(** Calls on a writer that wait for its commit. *)
Inductive op :=
| Add (d : doc)        (* add_document *)
| Update (d : doc).    (* update_document *)

(** Calls on the index and on its writers, in order. *)
Inductive wev :=
| WCreate                    (* wi.create_in *)
| WOpen                      (* wi.open_dir *)
| WInsert (o : op)
| WCommit (optimize : bool).

Record store := {
  indexdir : dirstate;
  pending : list op;       (* the calls of the writer that is open *)
  wlog : list wev
}.

(** [os.path.exists(indexdir)] *)
Definition path_exists (d : dirstate) : bool :=
  match d with
  | NoDir => false
  | _ => true
  end.

(** [geonameid] is the one field of the schema with [unique=True]. *)
Definition doc_id (d : doc) : option string :=
  match d !! "geonameid" with
  | Some (VStr s) => Some s
  | _ => None
  end.

Definition op_doc (o : op) : doc :=
  match o with
  | Add d => d
  | Update d => d
  end.

(** The ids whose committed documents an operation deletes:
    [update_document] deletes the committed documents that carry the
    unique key of the new one, [add_document] deletes none. *)
Definition op_deletes (o : op) : list string :=
  match o with
  | Add _ => []
  | Update d => match doc_id d with
                | Some i => [i]
                | None => []
                end
  end.

Definition deletes (ops : list op) : list string := concat (map op_deletes ops).

Definition survives (ids : list string) (d : doc) : bool :=
  match doc_id d with
  | Some i => negb (bool_decide (i ∈ ids))
  | None => true
  end.

(** What a commit leaves: the committed documents the writer did not
    delete, then the documents it was given.  A document the same writer
    added before is out of reach of its [update_document]. *)
Definition committed (docs : list doc) (ops : list op) : list doc :=
  filter (fun d => survives (deletes ops) d = true) docs ++ map op_doc ops.

Definition log (ev : wev) (s : store) : store :=
  {| indexdir := indexdir s; pending := pending s; wlog := wlog s ++ [ev] |}.

(** [wi.create_in(indexdir, schema)], after [os.makedirs]: a new, empty
    index, whatever was there. *)
Definition create_in : St store unit :=
  fun s => (Ok tt, log WCreate {| indexdir := Index []; pending := pending s;
                                  wlog := wlog s |}).

(** [wi.open_dir(indexdir)] of a directory that exists. *)
Definition open_dir : St store unit :=
  fun s => match indexdir s with
           | Index _ => (Ok tt, log WOpen s)
           | _ => (Raise EmptyIndexError, log WOpen s)
           end.

(** [whooidx.writer()]: a writer with nothing pending; what a writer
    that was never committed held is lost. *)
Definition writer : St store unit :=
  fun s => (Ok tt, {| indexdir := indexdir s; pending := []; wlog := wlog s |}).

Definition insert (o : op) : St store unit :=
  fun s => (Ok tt, log (WInsert o) {| indexdir := indexdir s;
                                      pending := pending s ++ [o];
                                      wlog := wlog s |}).

Definition add_document (d : doc) : St store unit := insert (Add d).
Definition update_document (d : doc) : St store unit := insert (Update d).

Definition commit (optimize : bool) : St store unit :=
  fun s => (Ok tt, log (WCommit optimize)
                     {| indexdir := match indexdir s with
                                    | Index docs => Index (committed docs (pending s))
                                    | other => other
                                    end;
                        pending := [];
                        wlog := wlog s |}).

End Writer.
Import Writer.

(** ** The class [GeoSearch]: building the index *)

Definition atbnames : list string :=
  ["geonameid"; "name"; "asciiname"; "alternatenames"; "latitude"; "longitude";
   "feature_class"; "feature_code"; "country_code"; "cc2"; "admin1_code";
   "admin2_code"; "admin3_code"; "admin4_code"; "population"; "elevation";
   "dem"; "timezone"; "modification_date"].

(** [line.split(sep)] for a separator of one character. *)
Fixpoint split (sep : ascii) (line : string) : list string :=
  match line with
  | EmptyString => [EmptyString]
  | String c rest =>
      if Ascii.eqb c sep then EmptyString :: split sep rest
      else match split sep rest with
           | w :: ws => String c w :: ws
           | [] => [String c EmptyString]
           end
  end.

Definition tab : ascii := ascii_of_nat 9.

Section Build.

(** The conversions of the Python library: [float(s)], [int(s)] and
    [datetime.strptime(s, '%Y-%m-%d')]; each raises on a string it does
    not read. *)
Variable py_float : string -> result Q.
Variable py_int : string -> result Z.
Variable strptime : string -> result val.

(** [sample[key] = conv(sample[key])] *)
Definition convert (key : string) (conv : string -> result val) (sample : doc)
  : result doc :=
  match sample !! key with
  | None => Raise (KeyError key)
  | Some (VStr s) => result_bind (conv s) (fun v => Ok (<[key := v]> sample))
  | Some _ => Raise TypeError
  end.

Definition to_float (s : string) : result val :=
  result_bind (py_float s) (fun q => Ok (VFloat q)).

(** [int(s) if s else None] *)
Definition to_int_or_none (s : string) : result val :=
  if str_truthy s then result_bind (py_int s) (fun z => Ok (VInt z)) else Ok VNone.

(** [datetime.strptime(s[:10], '%Y-%m-%d') if s else None] *)
Definition to_date_or_none (s : string) : result val :=
  if str_truthy s then strptime (substring 0 10 s) else Ok VNone.

(** Lines 268 to 278: one line of the file becomes a document. *)
Definition make_sample (line : string) : result doc :=
  let attb := split tab line in
  if negb (Nat.eqb (length attb) (length atbnames)) then Raise AssertionError
  else
    let sample : doc := list_to_map (zip atbnames (map VStr attb)) in
    result_bind (convert "latitude" to_float sample) (fun sample =>
    result_bind (convert "longitude" to_float sample) (fun sample =>
    result_bind (convert "population" to_int_or_none sample) (fun sample =>
    result_bind (convert "elevation" to_int_or_none sample) (fun sample =>
    result_bind (convert "dem" to_int_or_none sample) (fun sample =>
    convert "modification_date" to_date_or_none sample))))).

(** The loop of [_indexfile] over the lines that remain, lines 267 to
    287; [iline] is the number of the first of them. *)
Fixpoint index_loop (append : bool) (iline : Z) (lines : list string)
  : St store unit :=
  match lines with
  | [] => ret tt
  | line :: lines' =>
      sample <- lift (make_sample line) ;;
      (if append then add_document sample else update_document sample) ;;
      (if (iline mod 1000000 =? 999999)%Z
       then commit (negb append) ;; writer
       else ret tt) ;;
      index_loop append (iline + 1)%Z lines'
  end.

(** [filein] is given by its lines, [indexdir] is the directory of the
    store. *)
Definition _indexfile (filein : list string) (overwrite append : bool)
  : St store unit :=
  s <- get ;;
  (if overwrite || negb (path_exists (indexdir s))
   then create_in
   else open_dir) ;;
  writer ;;
  index_loop append 0 filein ;;
  commit (negb append).

(** The loop of [download] over the files of the archive, lines 198 to
    205: an exception ends the file it comes from and is dropped, and
    [overwrite] is cleared by the first file that is indexed. *)
Fixpoint download_loop (content_files : list (list string))
  (overwrite append : bool) : St store unit :=
  match content_files with
  | [] => ret tt
  | filein :: files' =>
      fun s => match _indexfile filein overwrite append s with
               | (Ok _, s') => download_loop files' false append s'
               | (Raise _, s') => download_loop files' overwrite append s'
               end
  end.

(** The indexing part of [download], from line 195 on; the archive is
    given by the lines of its files. *)
Definition download (content_files : list (list string)) (overwrite : bool)
  : St store unit :=
  let append := overwrite in
  download_loop content_files overwrite append.

End Build.

(** * The vocabulary of the properties *)

(** ** Queries *)

(** What a call adds to the trace, the index and the file left as they
    were. *)
Definition frame (s s' : state) (t : list event) : Prop :=
  whooidx s' = whooidx s /\ placecodes_json s' = placecodes_json s
  /\ trace s' = trace s ++ t.

(** The text queries among the events: the queries [find] builds. *)
Definition text_query (ev : event) : option query :=
  match ev with
  | EvSearch (Parsed fs tc s) => Some (Parsed fs tc s)
  | _ => None
  end.

Definition text_queries (t : list event) : list query := omap text_query t.

(** The accesses to the index among the events. *)
Definition index_access (ev : event) : bool :=
  match ev with
  | EvSearcher | EvSearch _ => true
  | EvLoadCodes => false
  end.

(** Lines 215 to 225 of [_add_description], once the table is at hand. *)
Definition describe (pc : codetable) (atb : attrs) : result attrs :=
  let classid := default (Flat (VStr "")) (atb !! "feature_class") in
  let codeid := default (Flat (VStr "")) (atb !! "feature_code") in
  result_bind (dict_get pc classid {| descr := None; codes := ∅ |}) (fun fclass =>
  result_bind (dict_get (codes fclass) codeid ∅) (fun fcode =>
  Ok (<["feature_code_full" := Flat (VStr (default "" (fcode !! "full")))]>
      (<["feature_code_short" := Flat (VStr (default "" (fcode !! "short")))]>
       (<["feature_class_descr" := Flat (opt_str (descr fclass))]> atb))))).

Definition description_keys : list string :=
  ["feature_class_descr"; "feature_code_short"; "feature_code_full"].

Definition hierarchy_keys : list string := map (fun l => "admin" ++ l)%string fnum.

(** The walk over the levels as the specification words it.  Level [n] of
    1 to 4 has the code [adminN_code] of the record, lowered as the index
    holds it, and the containment query: the country, the codes of the
    levels up to [n], and the feature code [ADM] followed by [n]. *)
Definition level_name (n : nat) : string := nth (n - 1) fnum "".

Definition admin_key (n : nat) : string := ("admin" ++ level_name n ++ "_code")%string.

Definition summary_key (n : nat) : string := ("admin" ++ level_name n)%string.

Definition code_of (atb : attrs) (key : string) : string :=
  match atb !! key with
  | Some (Flat (VStr c)) => lower c
  | _ => ""
  end.

Definition containment_query (atb : attrs) (n : nat) : query :=
  And ([Term "country_code" (code_of atb "country_code")]
       ++ map (fun k => Term (admin_key k) (code_of atb (admin_key k))) (seq 1 n)
       ++ [Term "feature_code" (lower ("ADM" ++ level_name n)%string)]).

(** A record as the index returns it: the country code and the four
    administrative codes are strings, and no summary is attached yet. *)
Definition wf_record (atb : attrs) : Prop :=
  (exists c, atb !! "country_code" = Some (Flat (VStr c)))
  /\ (forall n, (1 <= n <= 4)%nat ->
        (exists c, atb !! admin_key n = Some (Flat (VStr c)))
        /\ atb !! summary_key n = None).

Definition with_trace (s : state) (t : list event) : state :=
  {| place_codes := place_codes s; whooidx := whooidx s;
     placecodes_json := placecodes_json s; trace := trace s ++ t |}.

(** A run that leaves [self.place_codes] alone and only adds accesses to
    the index that are no text queries, [n] at most. *)
Definition quiet (n : nat) (s s' : state) : Prop :=
  place_codes s' = place_codes s
  /\ exists t, frame s s' t /\ text_queries t = []
               /\ Forall (fun ev => index_access ev = true) t
               /\ (length t <= n)%nat.

(** An element of the answer comes from a hit: it has the score of the
    hit and its stored fields, next to the keys that the enrichment adds. *)
Definition enriched (h : hit) (e : entry) : Prop :=
  score e = hit_score h
  /\ forall k, k ∉ description_keys ++ hierarchy_keys ->
               place e !! k = Flat <$> (hit_fields h !! k).

(** A run that adds no text query to the trace. *)
Definition no_text_query (s s' : state) : Prop :=
  exists t, frame s s' t /\ text_queries t = [].

Definition value_error {A} (r : result A) : Prop :=
  exists msg, r = Raise (ValueError msg).

(** The document lies in the square of half-width [w] about
    ([lat], [lon]), sides included. *)
Definition in_box (lat lon w : Q) (d : doc) : Prop :=
  exists x y, d !! "latitude" = Some (VFloat x) /\ d !! "longitude" = Some (VFloat y)
              /\ (lat - w <= x)%Q /\ (x <= lat + w)%Q
              /\ (lon - w <= y)%Q /\ (y <= lon + w)%Q.

Definition box_test (lat lon w : Q) (d : doc) : bool :=
  in_range "latitude" (lat - w) (lat + w) d
  && in_range "longitude" (lon - w) (lon + w) d.

(** The table of feature codes is at hand, in memory or in the file. *)
Definition codes_available (s : state) : Prop :=
  codes_truthy (place_codes s) = true \/ is_Some (placecodes_json s).

(** A document as [_indexfile] stores it, seen from the resolver. *)
Definition wf_doc (d : doc) : Prop :=
  (exists c, d !! "country_code" = Some (VStr c))
  /\ (forall n, (1 <= n <= 4)%nat ->
        (exists c, d !! admin_key n = Some (VStr c)) /\ d !! summary_key n = None).

Section Walk.

Variable term_match : string -> string -> doc -> bool.
Variable text_match : list string -> termclass -> string -> doc -> bool.

Definition containing (idx : list doc) (atb : attrs) (n : nat) : list doc :=
  filter (fun d => matches term_match text_match (containment_query atb n) d = true) idx.

(** The walk stops at a level whose code is empty, or whose query yields
    no match or more than one. *)
Definition stops (idx : list doc) (atb : attrs) (n : nat) : bool :=
  negb (str_truthy (code_of atb (admin_key n)))
  || negb (Nat.eqb (length (containing idx atb n)) 1).

(** The first level that stops the walk, 5 when none does. *)
Definition stop_level (idx : list doc) (atb : attrs) : nat :=
  default 5%nat (List.find (stops idx atb) [1; 2; 3; 4]%nat).

(** The number of queries of the walk: one a level before the stop, and
    one more at the stop when its code is not empty. *)
Definition queried (idx : list doc) (atb : attrs) : nat :=
  let n := stop_level idx atb in
  if Nat.eqb n 5 then 4%nat
  else if str_truthy (code_of atb (admin_key n)) then n else (n - 1)%nat.

(** The match of level [n], when there is one. *)
Definition unique_doc (idx : list doc) (atb : attrs) (n : nat) : doc :=
  default ∅ (head (containing idx atb n)).

(** The record with the summaries of the levels 1 to [m] attached. *)
Definition attach (idx : list doc) (atb : attrs) (m : nat) : attrs :=
  foldl (fun a n => <[summary_key n := Nested (strip (unique_doc idx atb n))]> a)
        atb (seq 1 m).

End Walk.

(** ** Builds *)

(** The ids of a batch of documents. *)
Definition ids_of (ds : list doc) : list string := omap doc_id ds.

(** What the calls of a build in a given mode look like: [append] decides
    between [add_document] and [update_document], and every commit has
    [optimize = not append]. *)
Definition call_in_mode (append : bool) (ev : wev) : Prop :=
  match ev with
  | WInsert (Add _) => append = true
  | WInsert (Update _) => append = false
  | WCommit optimize => optimize = negb append
  | WCreate | WOpen => True
  end.

(** The documents an index directory holds for a build that goes on top
    of it: none when the directory is missing. *)
Definition existing (d : dirstate) : option (list doc) :=
  match d with
  | NoDir => Some []
  | NoIndex => None
  | Index docs => Some docs
  end.

(** The store once [create_in] or [open_dir] is through. *)
Definition created (s : store) : store :=
  log WCreate {| indexdir := Index []; pending := pending s; wlog := wlog s |}.

Definition opened (s : store) : store := log WOpen s.

Section Ingest.

Variable py_float : string -> result Q.
Variable py_int : string -> result Z.
Variable strptime : string -> result val.

(** Every line of the file is read as a document. *)
Definition reads (filein : list string) (ds : list doc) : Prop :=
  Forall2 (fun line d => make_sample py_float py_int strptime line = Ok d) filein ds.

(** What [_indexfile] does once the index is open: a writer, the loop,
    the last commit. *)
Definition ingest (filein : list string) (append : bool) : St store unit :=
  writer ;; index_loop py_float py_int strptime append 0 filein ;; commit (negb append).

End Ingest.

(** * A small gazetteer to run the code on *)

Module Sample.

(** An analysis that keeps a field as one lowered token.  A fuzzy term
    matches a token that shares its first [prefixlength] characters and is
    within [maxdist] edits. *)
Definition term_match (fieldname text : string) (d : doc) : bool :=
  match d !! fieldname with
  | Some (VStr v) => String.eqb (lower v) text
  | _ => false
  end.

Fixpoint within (fuel k : nat) (a b : string) : bool :=
  match fuel with
  | O => false
  | S fuel' =>
      match a, b with
      | EmptyString, EmptyString => true
      | EmptyString, String _ b' =>
          match k with O => false | S k' => within fuel' k' a b' end
      | String _ a', EmptyString =>
          match k with O => false | S k' => within fuel' k' a' b end
      | String x a', String y b' =>
          if Ascii.eqb x y then within fuel' k a' b'
          else match k with
               | O => false
               | S k' => within fuel' k' a' b || within fuel' k' a b'
                         || within fuel' k' a' b'
               end
      end
  end.

Definition token_match (tc : termclass) (token text : string) : bool :=
  match tc with
  | PlainTerm => String.eqb token text
  | Fuzzy maxdist prefixlength =>
      String.eqb (substring 0 prefixlength token) (substring 0 prefixlength text)
      && within (S (String.length token + String.length text)) maxdist token text
  end.

Definition text_match (fieldnames : list string) (tc : termclass) (querystr : string)
  (d : doc) : bool :=
  existsb (fun f => match d !! f with
                    | Some (VStr v) => token_match tc (lower v) (lower querystr)
                    | _ => false
                    end) fieldnames.

Definition scoring (q : query) (d : doc) : Q := 1%Q.

(** Decimal literals, for [int] and [float], and dates. *)
Definition digit_of (c : ascii) : option Z :=
  let n := Z.of_nat (nat_of_ascii c) in
  if (48 <=? n)%Z && (n <=? 57)%Z then Some (n - 48)%Z else None.

Fixpoint digits (s : string) (acc : Z) : option Z :=
  match s with
  | EmptyString => Some acc
  | String c s' => match digit_of c with
                   | Some v => digits s' (10 * acc + v)%Z
                   | None => None
                   end
  end.

Definition unsigned (s : string) : option Z :=
  match s with
  | EmptyString => None
  | _ => digits s 0
  end.

Definition signed {A} (read : string -> option A) (neg : A -> A) (s : string)
  : result A :=
  let r := match s with
           | String "-" s' => option_map neg (read s')
           | _ => read s
           end in
  match r with
  | Some v => Ok v
  | None => Raise (ValueError "invalid literal")
  end.

Definition py_int : string -> result Z := signed unsigned Z.opp.

Definition unsigned_decimal (s : string) : option Q :=
  match split "." s with
  | [ip] => option_map inject_Z (unsigned ip)
  | [ip; fp] =>
      match unsigned ip, unsigned fp with
      | Some i, Some f =>
          let scale := (10 ^ Z.of_nat (String.length fp))%Z in
          Some (Qmake (i * scale + f) (Z.to_pos scale))
      | _, _ => None
      end
  | _ => None
  end.

Definition py_float : string -> result Q := signed unsigned_decimal Qopp.

Definition strptime (s : string) : result val :=
  match split "-" s with
  | [y; m; d] =>
      match unsigned y, unsigned m, unsigned d with
      | Some _, Some _, Some _ => Ok (VDate s)
      | _, _, _ => Raise (ValueError "time data does not match format")
      end
  | _ => Raise (ValueError "time data does not match format")
  end.

(** A line of the dump: the fields, tabs between them, and the end of
    line. *)
Definition line_of (attb : list string) : string :=
  (String.concat (String tab EmptyString) attb ++ String (ascii_of_nat 10) EmptyString)%string.

Definition sample_of (line : string) : doc :=
  match make_sample py_float py_int strptime line with
  | Ok d => d
  | Raise _ => ∅
  end.

Definition lisboa : string :=
  line_of ["1"; "Lisboa"; "Lisboa"; "Lisbon"; "38.7"; "-9.1"; "P"; "PPLC"; "PT"; "";
           "14"; "1106"; ""; ""; "500000"; ""; "45"; "Europe/Lisbon"; "2020-01-01"].

(** The same id once more, with another name. *)
Definition lisbon : string :=
  line_of ["1"; "Lisbon"; "Lisbon"; "Lisboa"; "38.7"; "-9.1"; "P"; "PPLC"; "PT"; "";
           "14"; "1106"; ""; ""; "500001"; ""; "45"; "Europe/Lisbon"; "2021-01-01"].

(** The first-level region of the two, an ADM1 record. *)
Definition distrito : string :=
  line_of ["2"; "Distrito de Lisboa"; "Distrito de Lisboa"; ""; "38.8"; "-9.2"; "A";
           "ADM1"; "PT"; ""; "14"; ""; ""; ""; "2000000"; ""; "100"; "Europe/Lisbon";
           "2020-01-01"].

(** A place at latitude 10 and longitude 20. *)
Definition crossing : string :=
  line_of ["3"; "Crossing"; "Crossing"; ""; "10.0"; "20.0"; "P"; "PPL"; "TD"; "";
           ""; ""; ""; ""; "0"; ""; "300"; "Africa/Ndjamena"; "2019-05-05"].

Definition gazetteer : list doc := map sample_of [lisboa; distrito; crossing].

(** A table of feature codes that knows the class P and its code PPLC. *)
Definition table : codetable :=
  {[ "P" := {| descr := Some "city, village,...";
               codes := {[ "PPLC" := {[ "short" := "capital of a political entity";
                                        "full" := "" ]} ]} |} ]}.

Definition fresh : store := {| indexdir := NoDir; pending := []; wlog := [] |}.

Definition commit_flags (l : list wev) : list bool :=
  omap (fun ev => match ev with WCommit o => Some o | _ => None end) l.

End Sample.

Import Sample.

(** An engine over the gazetteer, with the table of feature codes in its
    file. *)
Definition engine : state := init gazetteer (Some table).

(** The same with no file [placecodes.json], and with a file that holds
    the empty table. *)
Definition engine_without_file : state := init gazetteer None.

Definition engine_with_empty_table : state := init gazetteer (Some ∅).

Definition count_loads (t : list event) : nat :=
  length (omap (fun ev => match ev with EvLoadCodes => Some tt | _ => None end) t).

(** * Properties of the queries *)

Lemma frame_refl s : frame s s [].
Proof. unfold frame. by rewrite app_nil_r. Qed.

Lemma frame_trans s s1 s2 t1 t2 :
  frame s s1 t1 -> frame s1 s2 t2 -> frame s s2 (t1 ++ t2).
Proof.
  intros (Hi1 & Hf1 & Ht1) (Hi2 & Hf2 & Ht2). unfold frame.
  rewrite Hi2, Hf2, Ht2, Ht1, app_assoc. done.
Qed.

Lemma text_queries_app t1 t2 :
  text_queries (t1 ++ t2) = text_queries t1 ++ text_queries t2.
Proof. apply omap_app. Qed.

Lemma eq_2_ne_0 maxdist : eq maxdist 2 = true -> ne maxdist 0 = true.
Proof.
  destruct maxdist as [q| |]; simpl; try discriminate.
  unfold ne. simpl. intros H. apply Qeq_bool_iff in H.
  destruct (Qeq_bool q (inject_Z 0)) eqn:E; [|done].
  apply Qeq_bool_iff in E. rewrite E in H. discriminate.
Qed.

(** The three lists [levels] can be. *)
Lemma levels_cases maxdist :
  (eq maxdist 0 = true /\ levels maxdist = [exact])
  \/ (ne maxdist 0 = true /\ eq maxdist 2 = false /\ levels maxdist = [exact; single])
  \/ (eq maxdist 2 = true /\ levels maxdist = [exact; single; double]).
Proof.
  unfold levels. destruct (eq maxdist 2) eqn:E2.
  - right; right. rewrite (eq_2_ne_0 _ E2). done.
  - unfold ne. destruct (eq maxdist 0); simpl; auto.
Qed.

Ltac run_bind :=
  unfold bind, ret, raise, get, lift, emit, set_place_codes in *; simpl in *.

Lemma add_description_unfold atb s :
  _add_description atb s =
  match (if negb (codes_truthy (place_codes s)) then load_codes s
         else (Ok (default ∅ (place_codes s)), s)) with
  | (Ok pc, s1) => (describe pc atb, s1)
  | (Raise e, s1) => (Raise e, s1)
  end.
Proof.
  unfold _add_description, describe. run_bind.
  destruct (negb (codes_truthy (place_codes s))).
  - destruct (load_codes s) as [[pc|e] s1]; [|done].
    destruct (dict_get pc _ _) as [fc|e]; [|done]. simpl.
    destruct (dict_get (codes fc) _ _); done.
  - destruct (dict_get (default ∅ (place_codes s)) _ _) as [fc|e]; [|done]. simpl.
    destruct (dict_get (codes fc) _ _); done.
Qed.

Lemma load_codes_run s :
  load_codes s =
  match placecodes_json s with
  | None => (Raise FileNotFoundError, s)
  | Some t => (Ok t, {| place_codes := Some t; whooidx := whooidx s;
                        placecodes_json := placecodes_json s;
                        trace := trace s ++ [EvLoadCodes] |})
  end.
Proof. unfold load_codes. run_bind. destruct (placecodes_json s) eqn:E; simpl; rewrite ?E; reflexivity. Qed.

Lemma add_description_frame atb s r s' :
  _add_description atb s = (r, s') ->
  exists t, frame s s' t /\ (t = [] \/ t = [EvLoadCodes]).
Proof.
  rewrite add_description_unfold, load_codes_run. intros H.
  destruct (negb (codes_truthy (place_codes s))).
  - destruct (placecodes_json s) eqn:Ef; inversion H; subst.
    + exists [EvLoadCodes]. split; [|by right]. unfold frame; simpl. done.
    + exists []. split; [apply frame_refl | by left].
  - inversion H; subst. exists []. split; [apply frame_refl | by left].
Qed.

Lemma describe_keys pc atb atb' k :
  describe pc atb = Ok atb' -> k ∉ description_keys -> atb' !! k = atb !! k.
Proof.
  unfold describe, description_keys. intros H Hk.
  destruct (dict_get pc _ _) as [fc|]; [|done]. simpl in H.
  destruct (dict_get (codes fc) _ _) as [fcode|]; [|done]. simpl in H.
  inversion H; subst. rewrite !lookup_insert_ne; [done|..]; intros <-; apply Hk; set_solver.
Qed.

Lemma add_description_keys atb s atb' s' k :
  _add_description atb s = (Ok atb', s') ->
  k ∉ description_keys -> atb' !! k = atb !! k.
Proof.
  rewrite add_description_unfold. intros H Hk.
  destruct (if negb _ then _ else _) as [[pc|e] s1]; [|done].
  inversion H as [[Hd Hs]]. by apply (describe_keys pc).
Qed.

(** The stripped summary: the eight keys of [excludeatb] are gone, the
    other fields are those of the match. *)
Lemma excludeatb_eq :
  excludeatb = ["admin1_code"; "admin2_code"; "admin3_code"; "admin4_code";
                "feature_code"; "feature_class"; "country_code"; "cc2"].
Proof. reflexivity. Qed.

Lemma strip_lookup (d : doc) (k : string) :
  strip d !! k = if bool_decide (k ∈ excludeatb) then None else d !! k.
Proof.
  unfold strip. rewrite excludeatb_eq. simpl.
  repeat (rewrite lookup_delete; case_decide;
          [subst k; rewrite bool_decide_eq_true_2 by (repeat constructor); done|]).
  rewrite bool_decide_eq_false_2; [done|].
  rewrite !elem_of_cons, elem_of_nil. intuition congruence.
Qed.

(** A table that is kept in memory is used as it is: nothing is read. *)
Lemma add_description_cached (atb : attrs) s :
  codes_truthy (place_codes s) = true -> (_add_description atb s).2 = s.
Proof.
  intros Ht. rewrite add_description_unfold, Ht. reflexivity.
Qed.

(** A table that is not empty is read once: the call that reads it
    leaves it in memory. *)
Lemma add_description_loads (atb : attrs) s t :
  codes_truthy (place_codes s) = false -> placecodes_json s = Some t ->
  let s' := (_add_description atb s).2 in
  place_codes s' = Some t /\ trace s' = trace s ++ [EvLoadCodes].
Proof.
  intros Ht Hfile. rewrite add_description_unfold, load_codes_run, Ht, Hfile.
  by split.
Qed.

(** Without a table in memory and without the file, the call raises. *)
Lemma add_description_no_file (atb : attrs) s :
  codes_truthy (place_codes s) = false -> placecodes_json s = None ->
  _add_description atb s = (Raise FileNotFoundError, s).
Proof.
  intros Ht Hfile. by rewrite add_description_unfold, load_codes_run, Ht, Hfile.
Qed.

(** A class that the table lacks gives [None] and two empty strings; a
    code that its class lacks gives the description of the class and two
    empty strings. *)
Lemma describe_missing (pc : codetable) (atb : attrs) cls code :
  atb !! "feature_class" = Some (Flat (VStr cls)) ->
  atb !! "feature_code" = Some (Flat (VStr code)) ->
  (pc !! cls = None
   \/ exists fc, pc !! cls = Some fc /\ codes fc !! code = None) ->
  exists d, describe pc atb
            = Ok (<["feature_code_full" := Flat (VStr "")]>
                  (<["feature_code_short" := Flat (VStr "")]>
                   (<["feature_class_descr" := Flat d]> atb)))
            /\ (pc !! cls = None -> d = VNone).
Proof.
  intros Hcls Hcode Hmiss. unfold describe. rewrite Hcls, Hcode. simpl.
  destruct Hmiss as [Hnone|(fc & Hfc & Hnone)].
  - rewrite Hnone. simpl. rewrite lookup_empty. simpl. by exists VNone.
  - rewrite Hfc. simpl. rewrite Hnone. simpl. rewrite !lookup_empty. simpl.
    exists (opt_str (descr fc)). split; [done|]. intros Hn. congruence.
Qed.

(** The ranking permutes the hits. *)
Lemma insert_hit_perm h l : insert_hit h l ≡ₚ h :: l.
Proof.
  induction l as [|x l IH]; simpl; [done|].
  destruct (Qle_bool (hit_score x) (hit_score h)); [done|].
  rewrite IH. apply Permutation_swap.
Qed.

Lemma rank_perm l : rank l ≡ₚ l.
Proof.
  induction l as [|h l IH]; simpl; [done|].
  rewrite insert_hit_perm. by constructor.
Qed.

Lemma rank_nil l : rank l = [] <-> l = [].
Proof.
  split; [|by intros ->].
  intros H. apply Permutation_nil. rewrite <- H. apply rank_perm.
Qed.

Lemma up_to_nil {A} limit (l : list A) : up_to limit l = [] <-> l = [].
Proof.
  destruct limit as [n|]; simpl; [|tauto]. split; [|intros ->; apply take_nil].
  intros [Hn| ->]%take_nil_inv; [|done]. pose proof (Pos2Nat.is_pos n). lia.
Qed.

Section EngineFacts.

Variable term_match : string -> string -> doc -> bool.

Variable text_match : list string -> termclass -> string -> doc -> bool.

Variable scoring : query -> doc -> Q.

Local Abbreviation search := (search term_match text_match scoring).

Local Abbreviation searcher_search := (searcher_search term_match text_match scoring).

Local Abbreviation hierarchy_loop := (hierarchy_loop term_match text_match scoring).

Local Abbreviation _add_hierarchy := (_add_hierarchy term_match text_match scoring).

Local Abbreviation response_loop := (response_loop term_match text_match scoring).

Local Abbreviation _response := (_response term_match text_match scoring).

Local Abbreviation find_loop := (find_loop term_match text_match scoring).

Local Abbreviation find := (find term_match text_match scoring).

Local Abbreviation findpos := (findpos term_match text_match scoring).
Local Abbreviation containing := (containing term_match text_match).
Local Abbreviation stops := (stops term_match text_match).
Local Abbreviation stop_level := (stop_level term_match text_match).
Local Abbreviation queried := (queried term_match text_match).
Local Abbreviation unique_doc := (unique_doc term_match text_match).
Local Abbreviation attach := (attach term_match text_match).

Lemma searcher_search_run q limit s :
  exists s', searcher_search q limit s = (Ok (search (whooidx s) q limit), s')
             /\ frame s s' [EvSearch q] /\ place_codes s' = place_codes s.
Proof. eexists. split; [reflexivity|]. by repeat split. Qed.

(** No hit at all, if and only if no document matches. *)
Lemma search_top_nil idx q limit :
  top (search idx q limit) = [] <-> total (search idx q limit) = 0%nat.
Proof.
  unfold search. cbn [top total].
  rewrite up_to_nil, rank_nil, length_zero_iff_nil. split.
  - by intros ?%map_eq_nil.
  - by intros ->.
Qed.

(** *** The hierarchy resolver *)

Lemma hierarchy_loop_step l ls conds (atb : attrs) c s :
  atb !! ("admin" ++ l ++ "_code")%string = Some (Flat (VStr c)) ->
  hierarchy_loop (l :: ls) conds atb s =
  if negb (str_truthy (lower c)) then (Ok atb, s)
  else
    let conds' := conds ++ [Term ("admin" ++ l ++ "_code")%string (lower c)] in
    let q := And (conds' ++ [Term "feature_code" ("adm" ++ l)%string]) in
    let s1 := {| place_codes := place_codes s; whooidx := whooidx s;
                 placecodes_json := placecodes_json s;
                 trace := trace s ++ [EvSearch q] |} in
    match filter (fun d => matches term_match text_match q d = true) (whooidx s) with
    | [d] => hierarchy_loop ls conds'
               (<[("admin" ++ l)%string := Nested (strip d)]> atb) s1
    | _ => (Ok atb, s1)
    end.
Proof.
  intros Hc. simpl. unfold item_lower. rewrite Hc. run_bind.
  destruct (str_truthy (lower c)); [|done]. simpl.
  unfold Whoosh.search. simpl.
  destruct (filter _ (whooidx s)) as [|d [|d' ms]]; simpl; reflexivity.
Qed.

Lemma code_of_str (atb : attrs) key c :
  atb !! key = Some (Flat (VStr c)) -> code_of atb key = lower c.
Proof. unfold code_of. by intros ->. Qed.

Lemma add_hierarchy_country (atb : attrs) c s :
  atb !! "country_code" = Some (Flat (VStr c)) ->
  _add_hierarchy atb s = hierarchy_loop fnum [Term "country_code" (lower c)] atb s.
Proof. intros Hc. unfold _add_hierarchy, item_lower. rewrite Hc. reflexivity. Qed.

Ltac finish_walk s :=
  unfold queried, stop_level, stops, attach, unique_doc, with_trace;
  repeat (simpl;
          match goal with
          | H : str_truthy _ = _ |- _ => rewrite H
          | H : containing _ _ _ = _ |- _ => rewrite H
          end);
  destruct s; simpl; rewrite ?app_nil_r, <- ?app_assoc; reflexivity.

Ltac reach_code H :=
  rewrite !lookup_insert_ne by (let E := fresh in intros E; vm_compute in E; discriminate E);
  exact H.

Lemma add_hierarchy_run (atb : attrs) (s : state) :
  wf_record atb ->
  _add_hierarchy atb s =
  (Ok (attach (whooidx s) atb (stop_level (whooidx s) atb - 1)),
   with_trace s (map (fun n => EvSearch (containment_query atb n))
                     (seq 1 (queried (whooidx s) atb)))).
Proof.
  intros [[c0 H0] Hadm].
  destruct (Hadm 1%nat) as [[c1 H1] N1]; [lia|].
  destruct (Hadm 2%nat) as [[c2 H2] N2]; [lia|].
  destruct (Hadm 3%nat) as [[c3 H3] N3]; [lia|].
  destruct (Hadm 4%nat) as [[c4 H4] N4]; [lia|].
  clear Hadm.
  pose proof (code_of_str _ _ _ H0) as E0.
  pose proof (code_of_str _ _ _ H1) as E1.
  pose proof (code_of_str _ _ _ H2) as E2.
  pose proof (code_of_str _ _ _ H3) as E3.
  pose proof (code_of_str _ _ _ H4) as E4.
  rewrite (add_hierarchy_country _ _ _ H0). unfold fnum.
  rewrite (hierarchy_loop_step "1" _ _ atb c1) by exact H1.
  rewrite <- E0, <- E1.
  change (filter _ (whooidx s)) with (containing (whooidx s) atb 1).
  cbv zeta.
  destruct (str_truthy (code_of atb (admin_key 1))) eqn:T1; simpl negb; cbv iota.
  2:{ finish_walk s. }
  destruct (containing (whooidx s) atb 1) as [|d1 [|d1' r1]] eqn:F1.
  1,3: finish_walk s.
  rewrite (hierarchy_loop_step "2" _ _ _ c2) by (reach_code H2).
  rewrite <- E2.
  change (filter _ _) with (containing (whooidx s) atb 2).
  cbv zeta.
  destruct (str_truthy (code_of atb (admin_key 2))) eqn:T2; simpl negb; cbv iota.
  2:{ finish_walk s. }
  destruct (containing (whooidx s) atb 2) as [|d2 [|d2' r2]] eqn:F2.
  1,3: finish_walk s.
  rewrite (hierarchy_loop_step "3" _ _ _ c3) by (reach_code H3).
  rewrite <- E3.
  change (filter _ _) with (containing (whooidx s) atb 3).
  cbv zeta.
  destruct (str_truthy (code_of atb (admin_key 3))) eqn:T3; simpl negb; cbv iota.
  2:{ finish_walk s. }
  destruct (containing (whooidx s) atb 3) as [|d3 [|d3' r3]] eqn:F3.
  1,3: finish_walk s.
  rewrite (hierarchy_loop_step "4" _ _ _ c4) by (reach_code H4).
  rewrite <- E4.
  change (filter _ _) with (containing (whooidx s) atb 4).
  cbv zeta.
  destruct (str_truthy (code_of atb (admin_key 4))) eqn:T4; simpl negb; cbv iota.
  2:{ finish_walk s. }
  destruct (containing (whooidx s) atb 4) as [|d4 [|d4' r4]] eqn:F4.
  all: finish_walk s.
Qed.

Lemma stop_level_first idx atb :
  let stop := stop_level idx atb in
  (1 <= stop <= 5)%nat
  /\ ((stop <= 4)%nat -> stops idx atb stop = true)
  /\ (forall n, (1 <= n < stop)%nat -> stops idx atb n = false).
Proof.
  unfold stop_level. simpl List.find.
  destruct (stops idx atb 1) eqn:S1; simpl.
  { repeat split; try lia; try done. }
  destruct (stops idx atb 2) eqn:S2; simpl.
  { repeat split; try lia; try done. intros [|[|n]] Hn; try lia; done. }
  destruct (stops idx atb 3) eqn:S3; simpl.
  { repeat split; try lia; try done. intros [|[|[|n]]] Hn; try lia; done. }
  destruct (stops idx atb 4) eqn:S4; simpl.
  { repeat split; try lia; try done. intros [|[|[|[|n]]]] Hn; try lia; done. }
  repeat split; try lia. intros [|[|[|[|[|n]]]]] Hn; try lia; done.
Qed.

Lemma queried_le idx atb : (queried idx atb <= 4)%nat.
Proof.
  unfold queried. pose proof (stop_level_first idx atb) as [Hb _]. simpl in Hb.
  destruct (Nat.eqb_spec (stop_level idx atb) 5); [lia|].
  destruct (str_truthy _); lia.
Qed.

Ltac key_ne := let E := fresh in intros E; vm_compute in E; discriminate E.

Lemma attach_summary idx (atb : attrs) m n :
  (m <= 4)%nat -> (1 <= n <= 4)%nat ->
  attach idx atb m !! summary_key n
  = if (n <=? m)%nat then Some (Nested (strip (unique_doc idx atb n)))
    else atb !! summary_key n.
Proof.
  intros Hm Hn. unfold attach.
  destruct m as [|[|[|[|[|m]]]]]; try lia;
    destruct n as [|[|[|[|[|n]]]]]; try lia; simpl;
    rewrite ?lookup_insert_eq, ?lookup_insert_ne by key_ne;
    rewrite ?lookup_insert_eq, ?lookup_insert_ne by key_ne;
    rewrite ?lookup_insert_eq, ?lookup_insert_ne by key_ne;
    rewrite ?lookup_insert_eq, ?lookup_insert_ne by key_ne;
    reflexivity.
Qed.

Lemma attach_other idx (atb : attrs) m k :
  (m <= 4)%nat -> k ∉ hierarchy_keys -> attach idx atb m !! k = atb !! k.
Proof.
  intros Hm Hk. unfold attach.
  assert (forall n, (1 <= n <= 4)%nat -> summary_key n <> k) as Hne.
  { intros n Hn <-. apply Hk. unfold hierarchy_keys.
    destruct n as [|[|[|[|[|n]]]]]; try lia; vm_compute; repeat constructor. }
  destruct m as [|[|[|[|[|m]]]]]; try lia; simpl;
    rewrite ?lookup_insert_ne by (apply Hne; lia); reflexivity.
Qed.


(** *** What the enrichment of the hits leaves alone *)

Lemma quiet_refl n s : quiet n s s.
Proof.
  split; [done|]. exists []. split; [apply frame_refl|].
  split; [done|]. split; [constructor | simpl; lia].
Qed.

Lemma quiet_search n q s s1 s' :
  frame s s1 [EvSearch (And q)] -> place_codes s1 = place_codes s ->
  quiet n s1 s' -> quiet (S n) s s'.
Proof.
  intros Hf Hpc (Hpc' & t & Hf' & Htq & Hacc & Hlen).
  split; [congruence|]. exists ([EvSearch (And q)] ++ t).
  split; [by eapply frame_trans|]. rewrite text_queries_app, Htq.
  split; [done|]. split; [|simpl; lia].
  apply Forall_app. split; [by repeat constructor | done].
Qed.

(** Whatever the record, the walk only adds queries that are no text
    queries, and touches no key but the summaries of its levels. *)
Lemma hierarchy_loop_frame ls conds (atb : attrs) s r s' :
  hierarchy_loop ls conds atb s = (r, s') ->
  quiet (length ls) s s'
  /\ (forall atb' k, r = Ok atb' ->
        k ∉ map (fun l => "admin" ++ l)%string ls -> atb' !! k = atb !! k).
Proof.
  revert conds atb s. induction ls as [|l ls IH]; intros conds atb s; simpl.
  - intros [= <- <-]. split; [apply quiet_refl|]. by intros atb' k [= <-] _.
  - unfold item_lower.
    assert (forall e, (Raise e : result attrs, s) = (r, s') ->
            quiet (S (length ls)) s s'
            /\ (forall atb' k, r = Ok atb' ->
                  k ∉ (("admin" ++ l)%string :: map (fun l => "admin" ++ l)%string ls) ->
                  atb' !! k = atb !! k)) as Hraise.
    { intros e [= <- <-]. split; [apply quiet_refl|done]. }
    destruct (atb !! _) as [[[ | c | | | ] | ]|]; run_bind; eauto.
    destruct (str_truthy (lower c)); simpl.
    2:{ intros [= <- <-]. split; [apply quiet_refl|]. by intros atb' k [= <-] _. }
    set (q := _ ++ [Term "feature_code" _]). set (s1 := {| place_codes := _ |}).
    assert (frame s s1 [EvSearch (And q)]) as Hf1 by done.
    assert (forall x : result attrs, (x, s1) = (r, s') -> x = Ok atb ->
            quiet (S (length ls)) s s'
            /\ (forall atb' k, r = Ok atb' ->
                  k ∉ (("admin" ++ l)%string :: map (fun l => "admin" ++ l)%string ls) ->
                  atb' !! k = atb !! k)) as Hstop.
    { intros x [= <- <-] ->. split.
      - eapply quiet_search; [exact Hf1|done|apply quiet_refl].
      - by intros atb' k [= <-] _. }
    destruct (Nat.eqb _ 1); [|by eauto].
    destruct (take _ _) as [|h hs].
    { intros [= <- <-]. split; [|done].
      eapply quiet_search; [exact Hf1|done|apply quiet_refl]. }
    intros H. apply IH in H as (Hq & Hkeys).
    split; [eapply quiet_search; [exact Hf1|done|exact Hq]|].
    intros atb' k Hr Hk. rewrite (Hkeys atb' k Hr).
    + apply lookup_insert_ne. intros <-. apply Hk. by left.
    + intros Hin. apply Hk. by right.
Qed.

Lemma add_hierarchy_frame (atb : attrs) s r s' :
  _add_hierarchy atb s = (r, s') ->
  quiet 4 s s'
  /\ (forall atb' k, r = Ok atb' -> k ∉ hierarchy_keys -> atb' !! k = atb !! k).
Proof.
  unfold _add_hierarchy, item_lower.
  destruct (atb !! "country_code") as [[[ | c | | | ] | ]|];
    try (unfold bind, raise; intros [= <- <-]; split; [apply quiet_refl | done]).
  intros H.
  change (hierarchy_loop fnum [Term "country_code" (lower c)] atb s = (r, s')) in H.
  by apply hierarchy_loop_frame in H.
Qed.

Lemma no_text_query_refl s : no_text_query s s.
Proof. exists []. split; [apply frame_refl | done]. Qed.

Lemma no_text_query_trans s s1 s2 :
  no_text_query s s1 -> no_text_query s1 s2 -> no_text_query s s2.
Proof.
  intros (t1 & Hf1 & Ht1) (t2 & Hf2 & Ht2). exists (t1 ++ t2).
  split; [by eapply frame_trans|]. by rewrite text_queries_app, Ht1, Ht2.
Qed.

Lemma add_description_no_text (atb : attrs) s r s' :
  _add_description atb s = (r, s') -> no_text_query s s'.
Proof.
  intros H. apply add_description_frame in H as (t & Hf & [-> | ->]).
  - by exists [].
  - by exists [EvLoadCodes].
Qed.

Lemma add_hierarchy_no_text (atb : attrs) s r s' :
  _add_hierarchy atb s = (r, s') -> no_text_query s s'.
Proof.
  intros H. apply add_hierarchy_frame in H as [(_ & t & Hf & Ht & _) _].
  by exists t.
Qed.

Lemma response_loop_spec hierarchy expand_codes hits found s r s' :
  response_loop hierarchy expand_codes hits found s = (r, s') ->
  no_text_query s s'
  /\ (forall out, r = Ok out ->
        exists new, out = found ++ new /\ Forall2 enriched hits new).
Proof.
  revert found s. induction hits as [|h hits IH]; intros found s; simpl.
  - intros [= <- <-]. split; [apply no_text_query_refl|].
    intros out [= <-]. exists []. by rewrite app_nil_r.
  - unfold bind at 1.
    match goal with
    | |- context [match ?m s with _ => _ end] =>
        destruct (m s) as [[atb1|e1] s1] eqn:E1
    end.
    2:{ intros [= <- <-]. split; [|done].
        destruct expand_codes; [by eapply add_description_no_text|].
        inversion E1. }
    assert (no_text_query s s1
            /\ forall k, k ∉ description_keys ->
                         atb1 !! k = Flat <$> (hit_fields h !! k)) as [Hn1 Hk1].
    { destruct expand_codes.
      - split; [by eapply add_description_no_text|].
        intros k Hk. rewrite (add_description_keys _ _ _ _ _ E1 Hk).
        apply lookup_fmap.
      - inversion E1; subst. split; [apply no_text_query_refl|].
        intros k _. apply lookup_fmap. }
    unfold bind at 1.
    match goal with
    | |- context [match ?m s1 with _ => _ end] =>
        destruct (m s1) as [[atb2|e2] s2] eqn:E2
    end.
    2:{ intros [= <- <-]. split; [|done].
        eapply no_text_query_trans; [exact Hn1|].
        destruct hierarchy; [by eapply add_hierarchy_no_text|].
        inversion E2. }
    assert (no_text_query s1 s2
            /\ forall k, k ∉ hierarchy_keys -> atb2 !! k = atb1 !! k) as [Hn2 Hk2].
    { destruct hierarchy.
      - split; [by eapply add_hierarchy_no_text|].
        intros k Hk. apply add_hierarchy_frame in E2 as [_ Hkeys]. by apply Hkeys.
      - inversion E2; subst. split; [apply no_text_query_refl | done]. }
    intros H. apply IH in H as [Hn3 Hout].
    split; [eauto using no_text_query_trans|].
    intros out Hr. destruct (Hout out Hr) as (new & -> & Hall).
    eexists (_ :: new). split; [by rewrite <- app_assoc|].
    constructor; [|done]. split; [done|]. intros k Hk. simpl.
    rewrite Hk2, Hk1; [done|..]; intros Hin; apply Hk; apply elem_of_app; auto.
Qed.

(** [_response]: one element a hit; none, and nothing done, when no
    document matches. *)
Lemma response_spec idx q limit hierarchy expand_codes s r s' :
  _response (search idx q limit) hierarchy expand_codes s = (r, s') ->
  no_text_query s s'
  /\ (top (search idx q limit) = [] -> r = Ok [] /\ s' = s)
  /\ (forall out, r = Ok out -> Forall2 enriched (top (search idx q limit)) out).
Proof.
  unfold _response. intros H.
  destruct (Nat.eqb_spec (total (search idx q limit)) 0) as [Hz|Hnz]; simpl in H.
  - apply search_top_nil in Hz. inversion H; subst.
    split; [apply no_text_query_refl|]. split; [done|].
    intros out [= <-]. rewrite Hz. constructor.
  - apply response_loop_spec in H as [Hn Hout]. split; [done|]. split.
    + intros Ht. apply search_top_nil in Ht. done.
    + intros out Hr. destruct (Hout out Hr) as (new & -> & Hall). done.
Qed.

(** *** The tiers of [find] *)
Lemma text_queries_parse lv querystr t :
  text_queries (EvSearch (parse lv querystr) :: t) = parse lv querystr :: text_queries t.
Proof. by destruct lv. Qed.

(** The loop over the levels: the levels it consults are a prefix of the
    list it is given; all of them but the last have no hit; a result that
    is not empty comes from the last; an empty result means that every
    level of the list was consulted and has no hit. *)
Lemma find_loop_spec querystr limit hierarchy expand_codes lvs s r s' :
  find_loop querystr limit hierarchy expand_codes lvs [] s = (r, s') ->
  let hits lv := top (search (whooidx s) (parse lv querystr) limit) in
  exists used t,
    frame s s' t
    /\ text_queries t = map (fun lv => parse lv querystr) used
    /\ used `prefix_of` lvs
    /\ (lvs <> [] -> used <> [])
    /\ (forall l1 lv l2, used = l1 ++ lv :: l2 -> l2 <> [] -> hits lv = [])
    /\ (forall found, r = Ok found -> found <> [] ->
          exists lv, last used = Some lv /\ hits lv <> []
                     /\ Forall2 enriched (hits lv) found)
    /\ (r = Ok [] -> used = lvs /\ forall lv, lv ∈ lvs -> hits lv = []).
Proof.
  revert s. induction lvs as [|lv lvs IH]; intros s; simpl.
  - intros [= <- <-]. exists [], []. split; [apply frame_refl|].
    split; [done|]. split; [done|]. split; [done|]. split; [|split].
    + intros l1 lv l2 H. by destruct l1.
    + by intros found [= <-] Hne.
    + intros _. split; [done|]. intros lv Hin. by apply elem_of_nil in Hin.
  - unfold bind at 1.
    destruct (searcher_search_run (parse lv querystr) limit s) as (s1 & -> & Hf1 & _).
    unfold bind at 1.
    destruct (_response _ hierarchy expand_codes s1) as [[found|e] s2] eqn:Er.
    2:{ (* the enrichment raises *)
        intros [= <- <-].
        apply response_spec in Er as ((t2 & Hf2 & Ht2) & _ & _).
        exists [lv], (EvSearch (parse lv querystr) :: t2).
        split; [exact (frame_trans _ _ _ _ _ Hf1 Hf2)|].
        split; [by rewrite text_queries_parse, Ht2|].
        split; [by exists lvs|]. split; [done|].
        split; [|done].
        intros l1 lv' l2 H. destruct l1 as [|? [|? ?]]; simplify_eq/=. done. }
    pose proof Er as Er'.
    apply response_spec in Er as ((t2 & Hf2 & Ht2) & Hnil & Hout).
    specialize (Hout found eq_refl).
    destruct found as [|x found].
    + (* no hit at this level: on to the next *)
      apply Forall2_nil_inv_r in Hout.
      destruct (Hnil Hout) as [_ ->].
      intros H. apply IH in H as (used & t & Hf & Ht & Hpre & Hne & Hbefore & Hlast & Hall).
      pose proof Hf1 as (Hidx1 & _ & _). rewrite Hidx1 in *.
      exists (lv :: used), (EvSearch (parse lv querystr) :: t).
      split; [exact (frame_trans _ _ _ _ _ Hf1 Hf)|].
      split; [by rewrite text_queries_parse, Ht|].
      split; [by apply prefix_cons|]. split; [done|].
      split; [|split].
      * intros l1 lv' l2 H Hl2. destruct l1 as [|? l1]; simplify_eq/=; [done|].
        by eapply Hbefore.
      * intros found Hr Hfound. destruct (Hlast found Hr Hfound) as (lv' & Hl & Hh).
        exists lv'. split; [|done]. destruct used; [done|]. done.
      * intros Hr. destruct (Hall Hr) as [-> Hno]. split; [done|].
        intros lv' [->|Hin]%elem_of_cons; [done|by apply Hno].
    + (* a hit: the loop ends *)
      intros [= <- <-].
      exists [lv], (EvSearch (parse lv querystr) :: t2).
      split; [exact (frame_trans _ _ _ _ _ Hf1 Hf2)|].
      split; [by rewrite text_queries_parse, Ht2|].
      split; [by exists lvs|]. split; [done|].
      split; [|split; [|done]].
      * intros l1 lv' l2 H. destruct l1 as [|? [|? ?]]; simplify_eq/=. done.
      * intros found' [= <-] _. exists lv. split; [done|]. split; [|done].
        intros Hh.
        change (top (search (whooidx s) (parse lv querystr) limit) = []) in Hh.
        rewrite Hh in Hout. inversion Hout.
Qed.

(** *** No [ValueError] past the check of [maxdist] *)

Lemma dict_get_not_value_error {V} (d : gmap string V) k dflt :
  ~ value_error (dict_get d k dflt).
Proof. intros [msg H]. by destruct k as [[| | | |]|]. Qed.

Lemma add_description_not_value_error (atb : attrs) s :
  ~ value_error (_add_description atb s).1.
Proof.
  rewrite add_description_unfold, load_codes_run. intros [msg H].
  assert (forall pc, describe pc atb <> Raise (ValueError msg)) as Hd.
  { intros pc Hpc. unfold describe in Hpc.
    destruct (dict_get pc _ _) as [fc|e] eqn:E1; simpl in Hpc.
    - destruct (dict_get (codes fc) _ _) as [fcode|e] eqn:E2; simpl in Hpc; [done|].
      injection Hpc as ->. eapply dict_get_not_value_error. exists msg. exact E2.
    - injection Hpc as ->. eapply dict_get_not_value_error. exists msg. exact E1. }
  destruct (negb _); [destruct (placecodes_json s)|]; simpl in H;
    try discriminate; by eapply Hd.
Qed.

Lemma hierarchy_loop_not_value_error ls conds (atb : attrs) s :
  ~ value_error (hierarchy_loop ls conds atb s).1.
Proof.
  revert conds atb s. induction ls as [|l ls IH]; intros conds atb s [msg H]; simpl in H.
  - done.
  - unfold item_lower in H.
    destruct (atb !! _) as [[[ | c | | | ] | ]|]; run_bind; try discriminate.
    destruct (str_truthy (lower c)); simpl in H; [|done].
    destruct (Nat.eqb _ 1); [|done].
    destruct (take _ _) as [|h hs]; [done|].
    eapply IH. by exists msg.
Qed.

Lemma add_hierarchy_not_value_error (atb : attrs) s :
  ~ value_error (_add_hierarchy atb s).1.
Proof.
  unfold _add_hierarchy, item_lower.
  destruct (atb !! "country_code") as [[[ | c | | | ] | ]|];
    try (unfold bind, raise; simpl; by intros [msg H]).
  apply hierarchy_loop_not_value_error.
Qed.

Lemma response_loop_not_value_error hierarchy expand_codes hits found s :
  ~ value_error (response_loop hierarchy expand_codes hits found s).1.
Proof.
  revert found s. induction hits as [|h hits IH]; intros found s; simpl.
  - by intros [msg H].
  - unfold bind at 1.
    match goal with
    | |- context [match ?m s with _ => _ end] =>
        destruct (m s) as [[atb1|e1] s1] eqn:E1
    end.
    2:{ destruct expand_codes; [|inversion E1].
        pose proof (add_description_not_value_error (Flat <$> hit_fields h) s) as Hn.
        rewrite E1 in Hn. intros [msg [= ->]]. apply Hn. by exists msg. }
    unfold bind at 1.
    match goal with
    | |- context [match ?m s1 with _ => _ end] =>
        destruct (m s1) as [[atb2|e2] s2] eqn:E2
    end.
    2:{ destruct hierarchy; [|inversion E2].
        pose proof (add_hierarchy_not_value_error atb1 s1) as Hn.
        rewrite E2 in Hn. intros [msg [= ->]]. apply Hn. by exists msg. }
    apply IH.
Qed.

Lemma find_loop_not_value_error querystr limit hierarchy expand_codes lvs found s :
  ~ value_error (find_loop querystr limit hierarchy expand_codes lvs found s).1.
Proof.
  revert found s. induction lvs as [|lv lvs IH]; intros found s; simpl.
  - by intros [msg H].
  - unfold bind at 1.
    destruct (searcher_search_run (parse lv querystr) limit s) as (s1 & -> & _).
    unfold bind at 1, _response.
    destruct (negb _).
    + pose proof (response_loop_not_value_error hierarchy expand_codes
                    (top (search (whooidx s) (parse lv querystr) limit)) [] s1) as Hn.
      destruct (response_loop _ _ _ _ s1) as [[[|x out]|e] s2]; simpl in *;
        [apply IH | by intros [msg H] |].
      intros [msg [= ->]]. apply Hn. by exists msg.
    + simpl. apply IH.
Qed.

Lemma prefix_of_three {A} (l : list A) a b c :
  l `prefix_of` [a; b; c] -> l = [] \/ l = [a] \/ l = [a; b] \/ l = [a; b; c].
Proof.
  intros [k Hk]. destruct l as [|x [|y [|z [|w l]]]]; simplify_eq/=; auto.
Qed.

Lemma levels_prefix maxdist : levels maxdist `prefix_of` [exact; single; double].
Proof.
  destruct (levels_cases maxdist) as [[_ ->]|[(_ & _ & ->)|[_ ->]]].
  - by exists [single; double].
  - by exists [double].
  - by exists [].
Qed.

(** C3: a [maxdist] above 2 makes [find] raise [ValueError] at once: the
    state is the one the call started in, no searcher was opened and no
    search was run. *)
Theorem find_rejects_maxdist_above_2 querystr limit maxdist hierarchy expand_codes s :
  gt maxdist 2 = true ->
  find querystr limit maxdist hierarchy expand_codes s
  = (Raise (ValueError "Maxdist parameter must be less than 3"), s).
Proof. intros H. unfold find. by rewrite H. Qed.

(** C10: every [maxdist] that is not above 2 passes the check, negative
    and fractional values and NaN included: [find] goes on to its loop and
    raises no [ValueError]; the single-fuzzy level is among the levels of
    the loop exactly when [maxdist != 0], the double-fuzzy level exactly
    when [maxdist == 2]. *)
Theorem find_accepts_maxdist_up_to_2 querystr limit maxdist hierarchy expand_codes s :
  gt maxdist 2 = false ->
  ~ value_error (find querystr limit maxdist hierarchy expand_codes s).1
  /\ find querystr limit maxdist hierarchy expand_codes s
     = (searcher ;; find_loop querystr limit hierarchy expand_codes (levels maxdist) []) s
  /\ exact ∈ levels maxdist
  /\ (single ∈ levels maxdist <-> ne maxdist 0 = true)
  /\ (double ∈ levels maxdist <-> eq maxdist 2 = true).
Proof.
  intros H. unfold find. rewrite H. split; [|split; [done|]].
  - unfold bind, searcher, emit. apply find_loop_not_value_error.
  - destruct (levels_cases maxdist) as [[E ->]|[(E1 & E2 & ->)|[E ->]]].
    + unfold ne. rewrite E. destruct (eq maxdist 2) eqn:E2.
      * apply eq_2_ne_0 in E2. unfold ne in E2. by rewrite E in E2.
      * split; [apply list_elem_of_here|]. simpl.
        split; split; try done; intros Hin;
          repeat (apply elem_of_cons in Hin as [Hin|Hin]; try done);
          by apply elem_of_nil in Hin.
    + rewrite E1, E2. split; [apply list_elem_of_here|].
      split; split; try done.
      * intros _. apply list_elem_of_further, list_elem_of_here.
      * intros Hin. repeat (apply elem_of_cons in Hin as [Hin|Hin]; try done).
        by apply elem_of_nil in Hin.
    + rewrite E, (eq_2_ne_0 _ E). split; [apply list_elem_of_here|].
      split; split; try done; intros _; repeat constructor.
Qed.


(** *** The square of [findpos] *)

Lemma box_test_spec lat lon w d : box_test lat lon w d = true <-> in_box lat lon w d.
Proof.
  unfold box_test, in_box, in_range. split.
  - intros [H1 H2]%andb_prop.
    destruct (d !! "latitude") as [[| | |x|]|]; try discriminate.
    destruct (d !! "longitude") as [[| | |y|]|]; try discriminate.
    apply andb_prop in H1 as [H1 H1'], H2 as [H2 H2'].
    exists x, y. rewrite <- !Qle_bool_iff. done.
  - intros (x & y & -> & -> & H1 & H1' & H2 & H2').
    rewrite <- Qle_bool_iff in H1, H1', H2, H2'. by rewrite H1, H1', H2, H2'.
Qed.

Lemma up_to_map {A B} (f : A -> B) limit (l : list A) :
  up_to limit (map f l) = map f (up_to limit l).
Proof. destruct limit as [n|]; simpl; [|done]. by rewrite <- fmap_take. Qed.

Lemma add_description_total (d : doc) s :
  codes_available s ->
  exists atb' s', _add_description (Flat <$> d) s = (Ok atb', s')
                  /\ codes_available s' /\ whooidx s' = whooidx s.
Proof.
  intros Hav. rewrite add_description_unfold, load_codes_run.
  assert (forall pc, exists atb', describe pc (Flat <$> d) = Ok atb') as Hd.
  { intros pc. unfold describe. rewrite !lookup_fmap.
    destruct (d !! "feature_class") as [[]|]; simpl;
      destruct (d !! "feature_code") as [[]|]; simpl; eauto. }
  destruct (codes_truthy (place_codes s)) eqn:Ht; simpl.
  - destruct (Hd (default ∅ (place_codes s))) as [atb' ->]. eauto.
  - destruct Hav as [Hav|[t Hfile]]; [congruence|]. rewrite Hfile.
    destruct (Hd t) as [atb' ->]. eexists _, _. split; [done|].
    split; [|done]. right. simpl. eauto.
Qed.

Lemma summary_keys_apart n k :
  (1 <= n <= 4)%nat -> k ∈ description_keys ->
  k <> "country_code" /\ k <> admin_key n /\ k <> summary_key n.
Proof.
  intros Hn Hk. unfold description_keys in Hk.
  repeat (apply elem_of_cons in Hk as [->|Hk]);
    [..|by apply elem_of_nil in Hk];
    destruct n as [|[|[|[|[|n]]]]]; try lia; repeat split; key_ne.
Qed.

Lemma response_loop_total hierarchy expand_codes hits found s :
  (expand_codes = true -> codes_available s) ->
  (hierarchy = true -> Forall (fun h => wf_doc (hit_fields h)) hits) ->
  exists out s', response_loop hierarchy expand_codes hits found s = (Ok out, s').
Proof.
  revert found s. induction hits as [|h hits IH]; intros found s Hav Hwf; simpl.
  - by eexists _, _.
  - unfold bind at 1.
    assert (exists atb1 s1,
             (if expand_codes then _add_description (Flat <$> hit_fields h)
              else ret (Flat <$> hit_fields h)) s = (Ok atb1, s1)
             /\ (expand_codes = true -> codes_available s1)
             /\ (forall k, k ∉ description_keys ->
                   atb1 !! k = Flat <$> (hit_fields h !! k)))
      as (atb1 & s1 & -> & Hav1 & Hk1).
    { destruct expand_codes.
      - destruct (add_description_total (hit_fields h) s (Hav eq_refl))
          as (atb1 & s1 & E & Hav1 & _).
        exists atb1, s1. split; [done|]. split; [done|].
        intros k Hk. rewrite (add_description_keys _ _ _ _ _ E Hk). apply lookup_fmap.
      - eexists _, _. split; [done|]. split; [done|]. intros k _. apply lookup_fmap. }
    unfold bind at 1.
    assert (exists atb2 s2,
             (if hierarchy then _add_hierarchy atb1 else ret atb1) s1 = (Ok atb2, s2)
             /\ (expand_codes = true -> codes_available s2))
      as (atb2 & s2 & -> & Hav2).
    { destruct hierarchy; [|by eexists _, _].
      assert (wf_record atb1) as Hrec.
      { apply Forall_cons in Hwf as [[[c Hc] Hadm] _]; [|done].
        split.
        - exists c. rewrite Hk1, Hc; [done|].
          intros Hin. by destruct (summary_keys_apart 1 _ ltac:(lia) Hin) as [? _].
        - intros n Hn. destruct (Hadm n Hn) as [[c' Hc'] Hnone]. split.
          + exists c'. rewrite Hk1, Hc'; [done|].
            intros Hin. by destruct (summary_keys_apart n _ Hn Hin) as (_ & ? & _).
          + rewrite Hk1, Hnone; [done|].
            intros Hin. by destruct (summary_keys_apart n _ Hn Hin) as (_ & _ & ?). }
      rewrite (add_hierarchy_run atb1 s1 Hrec). eexists _, _. split; [done|].
      intros He. destruct (Hav1 He) as [?|?]; [by left | by right]. }
    apply IH; [done|].
    intros Hh. apply Forall_cons in Hwf as [_ ?]; done.
Qed.


End EngineFacts.

(** * Properties of the build *)

Lemma deletes_add ds : deletes (map Add ds) = [].
Proof. induction ds as [|d ds IH]; [done|]. unfold deletes in *. simpl. done. Qed.

Lemma deletes_update ds : deletes (map Update ds) = ids_of ds.
Proof.
  induction ds as [|d ds IH]; [done|]. unfold deletes, ids_of in *. simpl.
  rewrite IH. by destruct (doc_id d).
Qed.

Lemma map_op_doc_add ds : map op_doc (map Add ds) = ds.
Proof. rewrite map_map. apply map_id. Qed.

Lemma map_op_doc_update ds : map op_doc (map Update ds) = ds.
Proof. rewrite map_map. apply map_id. Qed.

Lemma survives_nil d : survives [] d = true.
Proof.
  unfold survives. destruct (doc_id d); [|done].
  rewrite bool_decide_eq_false_2; [done|]. apply not_elem_of_nil.
Qed.

Lemma survives_app A B d : survives (A ++ B) d = survives A d && survives B d.
Proof.
  unfold survives. destruct (doc_id d) as [i|]; [|done].
  rewrite <- negb_orb. f_equal.
  apply eq_true_iff_eq. rewrite orb_true_iff, !bool_decide_eq_true.
  apply elem_of_app.
Qed.

(** Adding only: a commit puts the new documents after the old ones. *)
Lemma committed_add docs ds : committed docs (map Add ds) = docs ++ ds.
Proof.
  unfold committed. rewrite deletes_add, map_op_doc_add. f_equal.
  induction docs as [|d docs IH]; [done|].
  rewrite filter_cons_True by apply survives_nil. by rewrite IH.
Qed.

(** Updating only: a commit drops the committed documents that carry an
    id of the batch, and puts the batch after the others. *)
Lemma committed_update docs ds :
  committed docs (map Update ds)
  = filter (fun d => survives (ids_of ds) d = true) docs ++ ds.
Proof. unfold committed. by rewrite deletes_update, map_op_doc_update. Qed.

Lemma filter_survives_twice A B (docs : list doc) :
  filter (fun d => survives B d = true) (filter (fun d => survives A d = true) docs)
  = filter (fun d => survives (A ++ B) d = true) docs.
Proof.
  rewrite list_filter_filter. apply list_filter_iff. intros d.
  rewrite survives_app, andb_true_iff. tauto.
Qed.

Lemma ids_of_app ds1 ds2 : ids_of (ds1 ++ ds2) = ids_of ds1 ++ ids_of ds2.
Proof. apply omap_app. Qed.

Section BuildFacts.

Variable py_float : string -> result Q.

Variable py_int : string -> result Z.

Variable strptime : string -> result val.

Local Abbreviation make_sample := (make_sample py_float py_int strptime).

Local Abbreviation index_loop := (index_loop py_float py_int strptime).

Local Abbreviation _indexfile := (_indexfile py_float py_int strptime).

Local Abbreviation download_loop := (download_loop py_float py_int strptime).

Local Abbreviation download := (download py_float py_int strptime).
Local Abbreviation reads := (reads py_float py_int strptime).
Local Abbreviation ingest := (ingest py_float py_int strptime).

(** One turn of the loop, for a line that is read. *)
Lemma index_loop_step append iline line lines d s :
  make_sample line = Ok d ->
  index_loop append iline (line :: lines) s =
  let o := if append then Add d else Update d in
  index_loop append (iline + 1) lines
    (if (iline mod 1000000 =? 999999)%Z
     then {| indexdir := match indexdir s with
                         | Index docs => Index (committed docs (pending s ++ [o]))
                         | other => other
                         end;
             pending := [];
             wlog := (wlog s ++ [WInsert o]) ++ [WCommit (negb append)] |}
     else {| indexdir := indexdir s; pending := pending s ++ [o];
             wlog := wlog s ++ [WInsert o] |}).
Proof.
  intros Hd. simpl. unfold bind at 1, lift. rewrite Hd.
  destruct append; unfold bind at 1, bind at 1; simpl;
    destruct (iline mod 1000000 =? 999999)%Z; reflexivity.
Qed.

Lemma index_loop_raise append iline line lines e s :
  make_sample line = Raise e ->
  index_loop append iline (line :: lines) s = (Raise e, s).
Proof. intros Hd. simpl. unfold bind at 1, lift. by rewrite Hd. Qed.

(** The calls of the loop are those of its mode. *)
Lemma index_loop_log append iline lines s r s' :
  index_loop append iline lines s = (r, s') ->
  exists t, wlog s' = wlog s ++ t /\ Forall (call_in_mode append) t.
Proof.
  revert iline s. induction lines as [|line lines IH]; intros iline s.
  - intros [= <- <-]. exists []. by rewrite app_nil_r.
  - destruct (make_sample line) as [d|e] eqn:Hd.
    + rewrite (index_loop_step _ _ _ _ _ _ Hd). cbv zeta. intros H.
      apply IH in H as (t & Ht & Hall).
      destruct (iline mod 1000000 =? 999999)%Z; simpl in Ht.
      * eexists (_ :: _ :: t). rewrite Ht, <- !app_assoc. split; [done|].
        repeat constructor; [by destruct append|done].
      * eexists (_ :: t). rewrite Ht, <- !app_assoc. split; [done|].
        constructor; [by destruct append|done].
    + rewrite (index_loop_raise _ _ _ _ _ _ Hd). intros [= <- <-].
      exists []. by rewrite app_nil_r.
Qed.

(** Adding: after the loop, the committed documents and those that wait
    are the ones from before, then the documents of the lines. *)
Lemma index_loop_add iline lines ds s c dp :
  reads lines ds -> indexdir s = Index c -> pending s = map Add dp ->
  exists s' c' dp',
    index_loop true iline lines s = (Ok tt, s')
    /\ indexdir s' = Index c' /\ pending s' = map Add dp'
    /\ c' ++ dp' = c ++ dp ++ ds.
Proof.
  intros Hreads. revert iline s c dp.
  induction Hreads as [|line d lines ds Hd _ IH]; intros iline s c dp Hc Hp.
  - exists s, c, dp. by rewrite app_nil_r.
  - rewrite (index_loop_step _ _ _ _ _ _ Hd). cbv zeta.
    destruct (iline mod 1000000 =? 999999)%Z.
    + rewrite Hc, Hp.
      change (map Add dp ++ [Add d]) with (map Add dp ++ map Add [d]).
      rewrite <- map_app, committed_add.
      edestruct (IH (iline + 1)%Z) with (dp := @nil doc)
        as (s' & c' & dp' & -> & Hc' & Hp' & Heq); [done..|].
      exists s', c', dp'. split; [done|]. split; [done|]. split; [done|].
      rewrite Heq. simpl. by rewrite <- !app_assoc.
    + edestruct (IH (iline + 1)%Z) with (dp := dp ++ [d])
        as (s' & c' & dp' & -> & Hc' & Hp' & Heq); [exact Hc| |].
      { simpl. by rewrite Hp, map_app. }
      exists s', c', dp'. split; [done|]. split; [done|]. split; [done|].
      rewrite Heq. by rewrite <- !app_assoc.
Qed.

(** Updating: after the loop and one more commit, the documents from
    before that carry no id of the lines are left, and after them come
    documents of the lines. *)
Lemma index_loop_update iline lines ds s c dp :
  reads lines ds -> indexdir s = Index c -> pending s = map Update dp ->
  exists s' c' dp' kept,
    index_loop false iline lines s = (Ok tt, s')
    /\ indexdir s' = Index c' /\ pending s' = map Update dp'
    /\ committed c' (map Update dp')
       = filter (fun x => survives (ids_of (dp ++ ds)) x = true) c ++ kept
    /\ kept `sublist_of` dp ++ ds.
Proof.
  intros Hreads. revert iline s c dp.
  induction Hreads as [|line d lines ds Hd _ IH]; intros iline s c dp Hc Hp.
  - exists s, c, dp, dp. rewrite app_nil_r. split; [done|]. split; [done|].
    split; [done|]. split; [apply committed_update | done].
  - rewrite (index_loop_step _ _ _ _ _ _ Hd). cbv zeta.
    destruct (iline mod 1000000 =? 999999)%Z.
    + rewrite Hc, Hp.
      change (map Update dp ++ [Update d]) with (map Update dp ++ map Update [d]).
      rewrite <- map_app, committed_update.
      edestruct (IH (iline + 1)%Z) with (dp := @nil doc)
        as (s' & c' & dp' & kept & -> & Hc' & Hp' & Heq & Hsub); [done..|].
      exists s', c', dp'.
      exists (filter (fun x => survives (ids_of ds) x = true) (dp ++ [d]) ++ kept).
      split; [done|]. split; [done|]. split; [done|]. split.
      * rewrite Heq. simpl. rewrite filter_app, filter_survives_twice.
        rewrite <- ids_of_app, <- !app_assoc. done.
      * rewrite (app_assoc dp [d] ds : dp ++ d :: ds = (dp ++ [d]) ++ ds).
        apply sublist_app; [apply sublist_filter | done].
    + edestruct (IH (iline + 1)%Z) with (dp := dp ++ [d])
        as (s' & c' & dp' & kept & -> & Hc' & Hp' & Heq & Hsub); [exact Hc| |].
      { simpl. by rewrite Hp, map_app. }
      exists s', c', dp', kept. rewrite <- app_assoc in Heq, Hsub. done.
Qed.

Lemma indexfile_unfold filein overwrite append s :
  _indexfile filein overwrite append s =
  if overwrite || negb (path_exists (indexdir s))
  then ingest filein append (created s)
  else match indexdir s with
       | Index _ => ingest filein append (opened s)
       | _ => (Raise EmptyIndexError, opened s)
       end.
Proof.
  unfold _indexfile, ingest. unfold bind at 1, get. unfold bind at 1.
  destruct (overwrite || negb (path_exists (indexdir s))).
  - reflexivity.
  - unfold open_dir. by destruct (indexdir s).
Qed.

Lemma ingest_log filein append s r s' :
  ingest filein append s = (r, s') ->
  exists t, wlog s' = wlog s ++ t /\ Forall (call_in_mode append) t
            /\ (r = Ok tt -> last t = Some (WCommit (negb append))).
Proof.
  unfold ingest. unfold bind at 1, writer. unfold bind at 1.
  destruct (index_loop _ _ _ _) as [[[]|e] s1] eqn:E;
    apply index_loop_log in E as (t & Ht & Hall); simpl in Ht.
  - intros [= <- <-]. exists (t ++ [WCommit (negb append)]). simpl.
    rewrite Ht, app_assoc. split; [done|]. split.
    + apply Forall_app. split; [done|]. by repeat constructor.
    + intros _. apply last_snoc.
  - intros [= <- <-]. by exists t.
Qed.

Lemma ingest_add filein ds s c :
  reads filein ds -> indexdir s = Index c ->
  exists s', ingest filein true s = (Ok tt, s')
             /\ indexdir s' = Index (c ++ ds) /\ pending s' = [].
Proof.
  intros Hreads Hc. unfold ingest. unfold bind at 1, writer. unfold bind at 1.
  edestruct (index_loop_add 0 filein ds) with (dp := @nil doc)
    as (s1 & c1 & dp1 & -> & Hc1 & Hp1 & Heq); [done|exact Hc|done|].
  eexists. split; [reflexivity|]. simpl. rewrite Hc1, Hp1, committed_add, Heq. done.
Qed.

Lemma ingest_update filein ds s c :
  reads filein ds -> indexdir s = Index c ->
  exists s' kept,
    ingest filein false s = (Ok tt, s')
    /\ indexdir s' = Index (filter (fun x => survives (ids_of ds) x = true) c ++ kept)
    /\ kept `sublist_of` ds /\ pending s' = [].
Proof.
  intros Hreads Hc. unfold ingest. unfold bind at 1, writer. unfold bind at 1.
  edestruct (index_loop_update 0 filein ds) with (dp := @nil doc)
    as (s1 & c1 & dp1 & kept & -> & Hc1 & Hp1 & Heq & Hsub); [done|exact Hc|done|].
  eexists _, kept. split; [reflexivity|]. simpl. rewrite Hc1, Hp1, Heq. done.
Qed.

Lemma indexfile_log filein overwrite append s r s' :
  _indexfile filein overwrite append s = (r, s') ->
  exists t, wlog s' = wlog s ++ t /\ Forall (call_in_mode append) t
            /\ (r = Ok tt -> last t = Some (WCommit (negb append))).
Proof.
  rewrite indexfile_unfold.
  assert (forall s0 ev, wlog s0 = wlog s ++ [ev] -> call_in_mode append ev ->
          ingest filein append s0 = (r, s') ->
          exists t, wlog s' = wlog s ++ t /\ Forall (call_in_mode append) t
                    /\ (r = Ok tt -> last t = Some (WCommit (negb append)))) as Hing.
  { intros s0 ev Hlog Hev H. apply ingest_log in H as (t & Ht & Hall & Hlast).
    exists (ev :: t). rewrite Ht, Hlog, <- app_assoc. split; [done|].
    split; [by constructor|]. intros Hr. specialize (Hlast Hr).
    destruct t; [done|]. done. }
  destruct (overwrite || negb (path_exists (indexdir s))).
  - by apply (Hing _ WCreate).
  - destruct (indexdir s); try by apply (Hing _ WOpen).
    all: intros [= <- <-]; exists [WOpen]; split; [done|]; split;
      [by repeat constructor | done].
Qed.

(** The loop of [download] drops the exceptions, and all its calls are
    those of the mode [append]. *)
Lemma download_loop_log files overwrite append s r s' :
  download_loop files overwrite append s = (r, s') ->
  r = Ok tt /\ exists t, wlog s' = wlog s ++ t /\ Forall (call_in_mode append) t.
Proof.
  revert overwrite s. induction files as [|f files IH]; intros overwrite s; simpl.
  - intros [= <- <-]. split; [done|]. exists []. by rewrite app_nil_r.
  - destruct (_indexfile f overwrite append s) as [[[]|e] s1] eqn:E;
      apply indexfile_log in E as (t1 & Ht1 & Hall1 & _);
      intros H; apply IH in H as [-> (t & Ht & Hall)];
      (split; [done|]); exists (t1 ++ t); rewrite Ht, Ht1, app_assoc;
      (split; [done|]); by apply Forall_app.
Qed.

Lemma filter_survives_nil (docs : list doc) :
  filter (fun x => survives [] x = true) docs = docs.
Proof.
  induction docs as [|d docs IH]; [done|].
  rewrite filter_cons_True by apply survives_nil. by rewrite IH.
Qed.

Lemma indexfile_on_index filein append s c :
  indexdir s = Index c ->
  _indexfile filein false append s = ingest filein append (opened s).
Proof. intros Hc. rewrite indexfile_unfold, Hc. reflexivity. Qed.

(** Adding, on top of an index: the documents of all the files, after
    those of the index. *)
Lemma download_loop_add files dss s c :
  Forall2 reads files dss -> indexdir s = Index c ->
  exists s', download_loop files false true s = (Ok tt, s')
             /\ indexdir s' = Index (c ++ concat dss).
Proof.
  intros Hall. revert s c.
  induction Hall as [|f ds files dss Hf _ IH]; intros s c Hc; simpl.
  - exists s. by rewrite app_nil_r.
  - rewrite (indexfile_on_index _ _ _ _ Hc).
    destruct (ingest_add f ds (opened s) c Hf Hc) as (s1 & -> & Hc1 & _).
    destruct (IH s1 _ Hc1) as (s' & -> & Hc').
    exists s'. split; [done|]. by rewrite Hc', app_assoc.
Qed.

(** Updating, on top of an index: the documents of the index that carry
    no id of the files, then documents of the files. *)
Lemma download_loop_update files dss s c :
  Forall2 reads files dss -> indexdir s = Index c ->
  exists s' kept,
    download_loop files false false s = (Ok tt, s')
    /\ indexdir s'
       = Index (filter (fun x => survives (ids_of (concat dss)) x = true) c ++ kept)
    /\ kept `sublist_of` concat dss.
Proof.
  intros Hall. revert s c.
  induction Hall as [|f ds files dss Hf _ IH]; intros s c Hc; simpl.
  - exists s, []. by rewrite filter_survives_nil, app_nil_r.
  - rewrite (indexfile_on_index _ _ _ _ Hc).
    destruct (ingest_update f ds (opened s) c Hf Hc) as (s1 & kept1 & -> & Hc1 & Hsub1 & _).
    destruct (IH s1 _ Hc1) as (s' & kept2 & -> & Hc' & Hsub2).
    exists s'.
    exists (filter (fun x => survives (ids_of (concat dss)) x = true) kept1 ++ kept2).
    split; [done|]. split.
    + rewrite Hc', filter_app, filter_survives_twice, ids_of_app, <- app_assoc. done.
    + apply sublist_app; [|done]. etrans; [apply sublist_filter | done].
Qed.

Lemma indexfile_creates filein append s :
  _indexfile filein true append s = ingest filein append (created s).
Proof. by rewrite indexfile_unfold. Qed.

Lemma indexfile_no_dir filein append s :
  indexdir s = NoDir ->
  _indexfile filein false append s = ingest filein append (created s).
Proof. intros Hd. by rewrite indexfile_unfold, Hd. Qed.

(** C5, as the code has it: with [overwrite] false, [_indexfile] raises
    [EmptyIndexError] only for an index directory that exists and holds no
    index; for a directory that does not exist it creates a new, empty
    index and ingests the file, as it does with [overwrite] true whatever
    the directory is; for a directory with an index it opens the index and
    ingests on top of it.  A file whose lines are all read is ingested to
    its end. *)
Theorem indexfile_open_or_create filein append s :
  _indexfile filein true append s = ingest filein append (created s)
  /\ match indexdir s with
     | NoDir => _indexfile filein false append s = ingest filein append (created s)
     | NoIndex => _indexfile filein false append s = (Raise EmptyIndexError, opened s)
     | Index _ => _indexfile filein false append s = ingest filein append (opened s)
     end
  /\ indexdir (created s) = Index []
  /\ indexdir (opened s) = indexdir s
  /\ (forall ds, reads filein ds ->
        exists s' docs, ingest filein append (created s) = (Ok tt, s')
                        /\ indexdir s' = Index docs).
Proof.
  split; [apply indexfile_creates|]. split.
  { destruct (indexdir s) eqn:Hd.
    - by apply indexfile_no_dir.
    - by rewrite indexfile_unfold, Hd.
    - by eapply indexfile_on_index. }
  split; [done|]. split; [done|].
  intros ds Hreads. destruct append.
  - destruct (ingest_add filein ds (created s) [] Hreads eq_refl) as (s' & -> & Hc & _).
    by eexists _, _.
  - destruct (ingest_update filein ds (created s) [] Hreads eq_refl)
      as (s' & kept & -> & Hc & _).
    by eexists _, _.
Qed.

(** C8, as the code has it: the commits of a build, at the batch
    boundaries and at the end of a file, optimize when the build appends
    ([overwrite] false) and do not when it replaces ([overwrite] true); a
    file that is indexed to its end is closed by such a commit. *)
Theorem download_commits_optimize files overwrite s r s' :
  download files overwrite s = (r, s') ->
  (exists t, wlog s' = wlog s ++ t
             /\ Forall (fun ev => forall optimize,
                           ev = WCommit optimize -> optimize = negb overwrite) t)
  /\ (forall filein ow s0 s1,
        _indexfile filein ow overwrite s0 = (Ok tt, s1) ->
        exists t, wlog s1 = wlog s0 ++ t
                  /\ last t = Some (WCommit (negb overwrite))).
Proof.
  unfold download. intros H. split.
  - apply download_loop_log in H as [_ (t & Ht & Hall)].
    exists t. split; [done|]. eapply Forall_impl; [exact Hall|].
    intros ev Hev optimize ->. exact Hev.
  - intros filein ow s0 s1 E. apply indexfile_log in E as (t & Ht & _ & Hlast).
    exists t. auto.
Qed.


End BuildFacts.

(** * The code on the small gazetteer *)


(** C3 on the gazetteer: [maxdist=3]. *)
Lemma find_rejects_maxdist_above_2_witness :
  gt (Fin 3) 2 = true
  /\ find term_match text_match scoring "lisboa" (Some 10%positive) (Fin 3) true true engine
     = (Raise (ValueError "Maxdist parameter must be less than 3"), engine).
Proof.
  split; [reflexivity|].
  apply (find_rejects_maxdist_above_2 term_match text_match scoring). reflexivity.
Defined.

(** C10 on the gazetteer: [maxdist=-1.5]. *)
Lemma find_accepts_maxdist_up_to_2_witness :
  gt (Fin (-3 # 2)) 2 = false
  /\ single ∈ levels (Fin (-3 # 2))
  /\ ~ value_error
       (find term_match text_match scoring "lisboa" (Some 10%positive) (Fin (-3 # 2))
             true true engine).1.
Proof.
  destruct (find_accepts_maxdist_up_to_2 term_match text_match scoring "lisboa"
              (Some 10%positive) (Fin (-3 # 2)) true true engine)
    as (Hno & _ & _ & Hsingle & _); [reflexivity|].
  split; [reflexivity|]. split; [|exact Hno].
  apply Hsingle. reflexivity.
Defined.




(** C8 on a build that appends one record. *)
Lemma download_commits_optimize_witness :
  exists r s' t,
    download py_float py_int strptime [[lisboa]] false fresh = (r, s')
    /\ wlog s' = wlog fresh ++ t
    /\ Forall (fun ev => forall optimize, ev = WCommit optimize -> optimize = true) t.
Proof.
  destruct (download py_float py_int strptime [[lisboa]] false fresh) as [r s'] eqn:E.
  destruct (download_commits_optimize py_float py_int strptime _ _ _ _ _ E)
    as [(t & Ht & Hall) _].
  exists r, s', t. split; [reflexivity|]. split; [exact Ht | exact Hall].
Defined.


(** C5, counterexample: with [overwrite] false and no index directory,
    [_indexfile] raises nothing: it creates the index and stores the
    record. *)
Lemma append_mode_creates_missing_index :
  exists s',
    _indexfile py_float py_int strptime [lisboa] false false fresh = (Ok tt, s')
    /\ (_indexfile py_float py_int strptime [lisboa] false false fresh).1
       <> Raise EmptyIndexError
    /\ indexdir s' = Index [sample_of lisboa]
    /\ wlog s' = [WCreate; WInsert (Update (sample_of lisboa)); WCommit true].
Proof.
  eexists. split; [vm_compute; reflexivity|].
  split; [vm_compute; discriminate|]. split; vm_compute; reflexivity.
Qed.

(** C8, counterexample: the one commit of a build with [overwrite] true
    does not optimize, the one of a build with [overwrite] false does. *)
Lemma replace_mode_commit_does_not_optimize :
  commit_flags (wlog (download py_float py_int strptime [[lisboa]] true fresh).2) = [false]
  /\ commit_flags (wlog (download py_float py_int strptime [[lisboa]] false fresh).2)
     = [true].
Proof. split; vm_compute; reflexivity. Qed.

(** C7, on the engine without the file [placecodes.json]: the enricher
    raises [FileNotFoundError], and so does a search with the default
    [expand_codes=True] that has a hit, where the warning of [download]
    promises results without the descriptions. *)
Theorem add_description_raises_without_file :
  _add_description (Flat <$> sample_of lisboa) engine_without_file
  = (Raise FileNotFoundError, engine_without_file)
  /\ (find term_match text_match scoring "lisboa" (Some 10%positive) (Fin 2) true true
           engine_without_file).1 = Raise FileNotFoundError.
Proof. split; vm_compute; reflexivity. Qed.

(** C9, on the engine whose file holds the empty table: every
    enrichment reads the file again, twice for two records in a row and
    once a hit within one search. *)
Theorem add_description_reads_empty_table_again :
  (exists a1 s1 a2 s2,
     _add_description (Flat <$> sample_of lisboa) engine_with_empty_table = (Ok a1, s1)
     /\ _add_description (Flat <$> sample_of distrito) s1 = (Ok a2, s2)
     /\ trace s1 = [EvLoadCodes] /\ trace s2 = [EvLoadCodes; EvLoadCodes])
  /\ count_loads (trace (findpos term_match text_match scoring (3875 # 100) (-915 # 100)
                                 (Some 10%positive) (Some (1 # 10)) false true
                                 engine_with_empty_table).2) = 2%nat
  /\ count_loads (trace (findpos term_match text_match scoring (3875 # 100) (-915 # 100)
                                 (Some 10%positive) (Some (1 # 10)) false true
                                 engine).2) = 1%nat.
Proof.
  split; [|split; vm_compute; reflexivity].
  eexists _, _, _, _. split; [vm_compute; reflexivity|].
  split; [vm_compute; reflexivity|]. split; reflexivity.
Qed.
